(** * statsdtee: a UDP tee for statsd packets

    A shallow embedding of the two variants of the program
    ([main.go], version 0.3.1, which decouples the listener from the
    router through a channel, and the older single-threaded version 0.1)
    together with the properties of the parser, the key rewriter, the
    fan-out router, the listener and the start-up sequence. *)

From Stdlib Require Import Strings.Byte Strings.String.
From stdpp Require Import base tactics option list sets.
From Stdlib Require Import NArith Lia.

Set Default Proof Using "Type".
Local Open Scope nat_scope.

(** ** Byte slices *)

(** A Go [[]byte] (and a Go [string], which is also a sequence of arbitrary
    bytes) is a list of bytes.  A nil slice and an empty slice are both
    [[]]: the program only ever takes the length of a slice, ranges over
    it or prints it, and none of these tells the two apart. *)
Abbreviation bytes := (list byte).

#[global] Instance byte_eq_dec : EqDecision byte := Byte.byte_eq_dec.

Definition B (s : string) : bytes := list_byte_of_string s.

Definition NL : byte := x0a.
Definition COLON : byte := x3a.
Definition DOLLAR : byte := x24.

(** [bytes.IndexByte(s, c)]: index of the first [c], if any. *)
Fixpoint IndexByte (s : bytes) (c : byte) : option nat :=
  match s with
  | [] => None
  | x :: s' => if decide (x = c) then Some 0 else S <$> IndexByte s' c
  end.

(** [bytes.Split(s, sep)] and [strings.Split(s, sep)] for a separator of
    one byte: the subslices between the separators; k separators give k+1
    slices, an empty input gives one empty slice. *)
Fixpoint Split (s : bytes) (sep : byte) : list bytes :=
  match s with
  | [] => [[]]
  | c :: rest =>
      if decide (c = sep) then [] :: Split rest sep
      else match Split rest sep with
           | l :: ls => (c :: l) :: ls
           | [] => [[c]]
           end
  end.

(** [bytes.Join(a, sep)] for a separator of one byte. *)
Fixpoint Join (a : list bytes) (sep : byte) : bytes :=
  match a with
  | [] => []
  | [l] => l
  | l :: ls => l ++ sep :: Join ls sep
  end.

(** [b[lo:hi]]. *)
Definition slice (b : bytes) (lo hi : nat) : bytes :=
  take (hi - lo) (drop lo b).

(** ** The regexp library

    The program uses Go's [regexp] package twice: the fixed
    [packetRegexp] splits a line, and each destination carries a
    pattern compiled from the command line.  The package promises the
    match a backtracking search finds first (leftmost, then by the
    preference order of the operators), which is what [matchAt] computes.
    Patterns are given as syntax trees, with the operator names of
    [regexp/syntax].  Matching is on bytes, one byte for one character,
    which is how the package reads ASCII text and bytes that are not
    UTF-8; statsd keys are ASCII. *)
Module regexp.

Inductive Regexp : Type :=
| OpEmptyMatch
| OpLiteral (b : byte)
| OpCharClass (negated : bool) (set : list byte)
| OpAnyCharNotNL
| OpAnyChar
| OpBeginText
| OpEndText
| OpCapture (index : nat) (name : bytes) (sub : Regexp)
| OpStar (sub : Regexp)
| OpPlus (sub : Regexp)
| OpQuest (sub : Regexp)
| OpConcat (r1 r2 : Regexp)
| OpAlternate (r1 r2 : Regexp).

(** Capture registers: entry [i] holds the bounds of group [i], entry 0 the
    bounds of the whole match; [None] is Go's [-1]. *)
Abbreviation Caps := (list (option (nat * nat))).

(** What remains to be matched after a subpattern: the position reached,
    the input left, the registers. *)
Abbreviation Cont := (nat -> bytes -> Caps -> option Caps).

Definition orElse (a : option Caps) (b : option Caps) : option Caps :=
  match a with
  | Some c => Some c
  | None => b
  end.

Definition inClass (negated : bool) (set : list byte) (c : byte) : bool :=
  xorb negated (bool_decide (c ∈ set)).

Definition oneByte (p : byte -> bool) (pos : nat) (s : bytes) (caps : Caps)
    (k : Cont) : option Caps :=
  match s with
  | c :: s' => if p c then k (S pos) s' caps else None
  | [] => None
  end.

(** Greedy repetition.  Each round must consume input, so at most
    [length s] rounds run and the fuel [S (length s)] given by [matchAt]
    is never used up. *)
Fixpoint starLoop (body : nat -> bytes -> Caps -> Cont -> option Caps)
    (fuel : nat) (pos : nat) (s : bytes) (caps : Caps) (k : Cont)
    : option Caps :=
  match fuel with
  | 0 => k pos s caps
  | S fuel' =>
      orElse
        (body pos s caps (fun pos' s' caps' =>
           if decide (length s' < length s)
           then starLoop body fuel' pos' s' caps' k
           else None))
        (k pos s caps)
  end.

Fixpoint matchAt (r : Regexp) (pos : nat) (s : bytes) (caps : Caps)
    (k : Cont) : option Caps :=
  match r with
  | OpEmptyMatch => k pos s caps
  | OpLiteral b => oneByte (fun c => bool_decide (c = b)) pos s caps k
  | OpCharClass negated set => oneByte (inClass negated set) pos s caps k
  | OpAnyCharNotNL => oneByte (fun c => negb (bool_decide (c = NL))) pos s caps k
  | OpAnyChar => oneByte (fun _ => true) pos s caps k
  | OpBeginText => if decide (pos = 0) then k pos s caps else None
  | OpEndText => match s with [] => k pos s caps | _ :: _ => None end
  | OpCapture i _ sub =>
      matchAt sub pos s caps (fun pos' s' caps' =>
        k pos' s' (<[i := Some (pos, pos')]> caps'))
  | OpStar sub => starLoop (matchAt sub) (S (length s)) pos s caps k
  | OpPlus sub =>
      matchAt sub pos s caps (fun pos' s' caps' =>
        starLoop (matchAt sub) (S (length s')) pos' s' caps' k)
  | OpQuest sub => orElse (matchAt sub pos s caps k) (k pos s caps)
  | OpConcat r1 r2 =>
      matchAt r1 pos s caps (fun pos' s' caps' => matchAt r2 pos' s' caps' k)
  | OpAlternate r1 r2 =>
      orElse (matchAt r1 pos s caps k) (matchAt r2 pos s caps k)
  end.

(** [re.NumSubexp()]: the number of capture groups. *)
Fixpoint NumSubexp (r : Regexp) : nat :=
  match r with
  | OpCapture i _ sub => Nat.max i (NumSubexp sub)
  | OpStar sub | OpPlus sub | OpQuest sub => NumSubexp sub
  | OpConcat r1 r2 | OpAlternate r1 r2 => Nat.max (NumSubexp r1) (NumSubexp r2)
  | _ => 0
  end.

(** The unanchored search: the first start position at or after [pos] from
    which the pattern matches. *)
Fixpoint searchFrom (re : Regexp) (pos : nat) (s : bytes) : option Caps :=
  orElse
    (matchAt re pos s (replicate (S (NumSubexp re)) None)
       (fun pos' _ caps' => Some (<[0 := Some (pos, pos')]> caps')))
    (match s with
     | [] => None
     | _ :: s' => searchFrom re (S pos) s'
     end).

(** [re.doExecute] on the byte slice [b] from [pos]: the registers of the
    leftmost match in [b] that starts at or after [pos]. *)
Definition doExecute (re : Regexp) (b : bytes) (pos : nat) : option Caps :=
  if decide (pos <= length b) then searchFrom re pos (drop pos b) else None.

Definition group (b : bytes) (c : option (nat * nat)) : bytes :=
  match c with
  | Some (lo, hi) => slice b lo hi
  | None => []
  end.

(** [re.FindSubmatch(b)]: the text of the leftmost match and of its
    groups, or nil ([[]]) when there is no match. *)
Definition FindSubmatch (re : Regexp) (b : bytes) : list bytes :=
  match doExecute re b 0 with
  | None => []
  | Some a => group b <$> a
  end.

(** [re.SubexpNames()]: entry [i] is the name of group [i], empty for an
    unnamed group and for the whole match. *)
Fixpoint capNames (r : Regexp) (names : list bytes) : list bytes :=
  match r with
  | OpCapture i name sub => capNames sub (<[i := name]> names)
  | OpStar sub | OpPlus sub | OpQuest sub => capNames sub names
  | OpConcat r1 r2 | OpAlternate r1 r2 => capNames r2 (capNames r1 names)
  | _ => names
  end.

Definition SubexpNames (re : Regexp) : list bytes :=
  capNames re (replicate (S (NumSubexp re)) []).

(** *** Expanding a replacement template *)

Definition isDigit (c : byte) : bool :=
  (48 <=? Byte.to_nat c) && (Byte.to_nat c <=? 57).

(** A letter, a digit or an underscore (of ASCII). *)
Definition isWord (c : byte) : bool :=
  isDigit c
  || ((65 <=? Byte.to_nat c) && (Byte.to_nat c <=? 90))
  || ((97 <=? Byte.to_nat c) && (Byte.to_nat c <=? 122))
  || bool_decide (c = x5f).

Fixpoint takeWhile (p : byte -> bool) (s : bytes) : bytes :=
  match s with
  | c :: s' => if p c then c :: takeWhile p s' else []
  | [] => []
  end.

(** The number a name stands for: [None] (Go's [-1]) for a name with a
    byte that is no digit, with a leading zero, or too long. *)
Definition parseNum (name : bytes) : option N :=
  let step (num : option N) (c : byte) : option N :=
    match num with
    | Some n =>
        if isDigit c && (n <? 100000000)%N
        then Some (n * 10 + (Byte.to_N c - 48))%N
        else None
    | None => None
    end in
  match name with
  | c :: _ :: _ => if decide (c = x30) then None else foldl step (Some 0%N) name
  | _ => foldl step (Some 0%N) name
  end.

(** [extract], on the text after a dollar sign: the name referred to, its
    number, and the count of bytes the reference takes; [None] when the
    reference is malformed. *)
Definition extract (str : bytes) : option (bytes * option N * nat) :=
  match str with
  | [] => None
  | c :: rest =>
      let brace := bool_decide (c = x7b) in
      let str' := if brace then rest else str in
      let name := takeWhile isWord str' in
      let i := length name in
      if decide (i = 0) then None
      else if brace then
        match str' !! i with
        | Some c' =>
            if decide (c' = x7d) then Some (name, parseNum name, i + 2)
            else None
        | None => None
        end
      else Some (name, parseNum name, i)
  end.

(** The text a reference expands to: the group with that number, or the
    first matched group with that name; nothing when there is none. *)
Definition lookupGroup (names : list bytes) (src : bytes) (a : Caps)
    (name : bytes) (num : option N) : bytes :=
  match num with
  | Some n => group src (default None (a !! N.to_nat n))
  | None =>
      default []
        (head (omap (fun '(namei, c) =>
                 match c with
                 | Some _ => if decide (name = namei) then Some (group src c)
                             else None
                 | None => None
                 end) (zip names a)))
  end.

(** [re.expand(dst, template, src, a)].  The template is walked byte by
    byte; [skip] counts the bytes of the reference being replaced that are
    still to be passed over.  [$$] is a dollar sign; a malformed
    reference leaves its dollar sign as it is. *)
Fixpoint expandFrom (names : list bytes) (src : bytes) (a : Caps)
    (skip : nat) (template : bytes) (dst : bytes) : bytes :=
  match template with
  | [] => dst
  | c :: t =>
      match skip with
      | S n => expandFrom names src a n t dst
      | 0 =>
          if decide (c = DOLLAR) then
            match t with
            | c' :: _ =>
                if decide (c' = DOLLAR) then
                  expandFrom names src a 1 t (dst ++ [DOLLAR])
                else
                  match extract t with
                  | Some (name, num, n) =>
                      expandFrom names src a n t
                        (dst ++ lookupGroup names src a name num)
                  | None => expandFrom names src a 0 t (dst ++ [DOLLAR])
                  end
            | [] => dst ++ [DOLLAR]
            end
          else expandFrom names src a 0 t (dst ++ [c])
      end
  end.

Definition expand (re : Regexp) (dst : bytes) (template : bytes)
    (src : bytes) (a : Caps) : bytes :=
  expandFrom (SubexpNames re) src a 0 template dst.

(** *** Replacing all matches *)

(** The bounds of the whole match. *)
Definition whole (a : Caps) : nat * nat :=
  default (0, 0) (default None (a !! 0)).

(** The loop of [re.replaceAll]: [lastMatchEnd] is the end of the most
    recent match, [searchPos] the position where the next search starts,
    [buf] the output so far.  Every round moves [searchPos] forward, so the
    loop ends within [S (length src)] rounds, and [fuel] counts them. *)
Fixpoint replaceAllLoop (re : Regexp) (nmatch : nat) (src repl : bytes)
    (fuel : nat) (lastMatchEnd searchPos : nat) (buf : bytes) : bytes :=
  match fuel with
  | 0 => buf ++ drop lastMatchEnd src
  | S fuel' =>
      if decide (searchPos <= length src) then
        match doExecute re src searchPos with
        | None => buf ++ drop lastMatchEnd src
        | Some a =>
            let a := take nmatch a in
            let '(a0, a1) := whole a in
            let buf := buf ++ slice src lastMatchEnd a0 in
            let buf :=
              if decide (lastMatchEnd < a1 \/ a0 = 0)
              then expand re buf repl src a else buf in
            let width := if decide (searchPos < length src) then 1 else 0 in
            let searchPos :=
              if decide (a1 < searchPos + width) then searchPos + width
              else if decide (a1 < searchPos + 1) then searchPos + 1
              else a1 in
            replaceAllLoop re nmatch src repl fuel' a1 searchPos buf
        end
      else buf ++ drop lastMatchEnd src
  end.

(** [re.ReplaceAll(src, repl)]: a copy of [src] in which the matches of
    [re] are replaced by the expansion of [repl].  The groups are only
    asked of the matcher when the template has a dollar sign. *)
Definition ReplaceAll (re : Regexp) (src repl : bytes) : bytes :=
  let nmatch :=
    match IndexByte repl DOLLAR with
    | Some _ => S (NumSubexp re)
    | None => 1
    end in
  replaceAllLoop re nmatch src repl (S (S (length src))) 0 0 [].

End regexp.

Import regexp.

(** ** The record parser *)

Record Packet : Type := mkPacket { Key : bytes; Body : bytes }.

(** The compiled [packetRegexp]: at the start of the text, group 1 is one
    or more bytes other than a colon; then a colon; then group 2 is any
    number of bytes other than a newline, up to the end of the text.  The
    colon and the newline are ASCII, so their places are the same whether
    the text is read as bytes or as UTF-8. *)
Definition packetRegexp : Regexp :=
  OpConcat OpBeginText
    (OpConcat (OpCapture 1 [] (OpPlus (OpCharClass true [COLON])))
       (OpConcat (OpLiteral COLON)
          (OpConcat (OpCapture 2 [] (OpStar OpAnyCharNotNL)) OpEndText))).

(** The body of the loop of [parseMessage]: the records a line adds to
    [output]. *)
Definition parseLine (line : bytes) : list Packet :=
  if decide (length line = 0) then []
  else
    let item := FindSubmatch packetRegexp line in
    if decide (length item = 0) then []
    else [ {| Key := item !!! 1; Body := item !!! 2 |} ].

Definition parseMessage (data : bytes) : list Packet :=
  foldl (fun output line => output ++ parseLine line) [] (Split data NL).

(** ** The process and its environment *)

(** A dialed UDP socket: a handle, and the remote address it was dialed
    toward. *)
Record Conn : Type := mkConn { conn_id : nat; RemoteAddr : bytes }.

(** A slice [message[:n]] of the array [array] on the heap. *)
Record Slice : Type := mkSlice { array : nat; len : nat }.

(** [time.Second], in nanoseconds. *)
Definition Second : N := 1000000000%N.

(** What the process does to the outside, in the order it does it. *)
Inductive Event : Type :=
| EvPrint (format : string)
| EvLog (format : string)
| EvFatal (format : string)
| EvGOMAXPROCS (n : nat)
| EvNotify
| EvGo
| EvListen (addr : bytes) (ok : bool)
| EvSetReadBuffer (size : N) (ok : bool)
| EvMake (array : nat) (size : nat)
| EvRead (array : nat) (n : option nat)
| EvSend (data : Slice)
| EvDial (addr : bytes) (timeout : N) (conn : option Conn)
| EvWrite (conn : Conn) (packet : bytes) (ok : bool)
| EvClose (conn : Conn).

(** The environment and the memory of the process.  [dials] and [writes]
    script the results of the coming calls of [net.DialTimeout] and of
    [conn.Write], [false] for an error; a call beyond the script
    succeeds.  [heap] holds the arrays made so far, [dataCh] the slices
    sent on the channel and not yet received. *)
Record World : Type := mkWorld {
  listenOk : bool;
  setReadBufferOk : bool;
  dials : list bool;
  writes : list bool;
  nextConn : nat;
  heap : list bytes;
  dataCh : list Slice;
}.

Definition set_dials (f : list bool -> list bool) (w : World) : World :=
  mkWorld (listenOk w) (setReadBufferOk w) (f (dials w)) (writes w)
    (nextConn w) (heap w) (dataCh w).
Definition set_writes (f : list bool -> list bool) (w : World) : World :=
  mkWorld (listenOk w) (setReadBufferOk w) (dials w) (f (writes w))
    (nextConn w) (heap w) (dataCh w).
Definition set_nextConn (f : nat -> nat) (w : World) : World :=
  mkWorld (listenOk w) (setReadBufferOk w) (dials w) (writes w)
    (f (nextConn w)) (heap w) (dataCh w).
Definition set_heap (f : list bytes -> list bytes) (w : World) : World :=
  mkWorld (listenOk w) (setReadBufferOk w) (dials w) (writes w)
    (nextConn w) (f (heap w)) (dataCh w).
Definition set_dataCh (f : list Slice -> list Slice) (w : World) : World :=
  mkWorld (listenOk w) (setReadBufferOk w) (dials w) (writes w)
    (nextConn w) (heap w) (f (dataCh w)).

(** How a piece of the program ends: it returns a value, the process
    exits with a status ([log.Fatalf] exits with 1), or it panics. *)
Inductive Outcome (A : Type) : Type :=
| Ret (a : A)
| Exit (status : nat)
| Panic.
Arguments Ret {A} a.
Arguments Exit {A} status.
Arguments Panic {A}.

(** A piece of the program: from a world, the events it produces, the
    world it leaves and how it ends. *)
Definition M (A : Type) : Type := World -> list Event * World * Outcome A.

Definition ret {A} (a : A) : M A := fun w => ([], w, Ret a).

Definition bind {A B} (m : M A) (f : A -> M B) : M B := fun w =>
  let '(e1, w1, o) := m w in
  match o with
  | Ret a => let '(e2, w2, o2) := f a w1 in (e1 ++ e2, w2, o2)
  | Exit status => (e1, w1, Exit status)
  | Panic => (e1, w1, Panic)
  end.

Notation "x <- m ;; f" := (bind m (fun x => f))
  (at level 100, m at next level, right associativity).
Notation "m ;;; f" := (bind m (fun _ => f))
  (at level 100, right associativity).

Definition emit (e : Event) : M unit := fun w => ([e], w, Ret tt).
Definition panic {A} : M A := fun w => ([], w, Panic).

Definition events {A} (r : list Event * World * Outcome A) : list Event := r.1.1.
Definition world {A} (r : list Event * World * Outcome A) : World := r.1.2.
Definition outcome {A} (r : list Event * World * Outcome A) : Outcome A := r.2.


(** *** The calls into the runtime and the network *)

Definition Printf (format : string) : M unit := emit (EvPrint format).
Definition log_Printf (format : string) : M unit := emit (EvLog format).
Definition log_Fatalf {A} (format : string) : M A := fun w =>
  ([EvFatal format], w, Exit 1).

(** [fmt.Sprintf] with the format of two [%s] around a colon. *)
Definition Sprintf_s_colon_s (a b : bytes) : bytes := a ++ COLON :: b.

Definition DialTimeout (address : bytes) (timeout : N) : M (option Conn) :=
  fun w =>
    match dials w with
    | false :: _ => ([EvDial address timeout None], set_dials tail w, Ret None)
    | _ =>
        let conn := mkConn (nextConn w) address in
        ([EvDial address timeout (Some conn)],
         set_nextConn S (set_dials tail w), Ret (Some conn))
    end.

(** [conn.Write(packet)]: [true] when the error is nil. *)
Definition Write (conn : Conn) (packet : bytes) : M bool := fun w =>
  match writes w with
  | false :: _ => ([EvWrite conn packet false], set_writes tail w, Ret false)
  | _ => ([EvWrite conn packet true], set_writes tail w, Ret true)
  end.

Definition Close (conn : Conn) : M unit := emit (EvClose conn).

Definition ListenUDP (addr : bytes) : M bool := fun w =>
  ([EvListen addr (listenOk w)], w, Ret (listenOk w)).

Definition SetReadBuffer (size : N) : M bool := fun w =>
  ([EvSetReadBuffer size (setReadBufferOk w)], w, Ret (setReadBufferOk w)).

(** [make([]byte, size)]: a new array of zero bytes, at the next free place
    of the heap. *)
Definition make (size : nat) : M nat := fun w =>
  ([EvMake (length (heap w)) size],
   set_heap (fun h => h ++ [replicate size x00]) w,
   Ret (length (heap w))).

(** [listener.ReadFromUDP(message)] when the socket delivers [incoming]: an
    error ([None]), or a datagram, of which as many bytes as the array
    holds are copied to its front. *)
Definition ReadFromUDP (incoming : option bytes) (message : nat)
    : M (option nat) := fun w =>
  match incoming with
  | None => ([EvRead message None], w, Ret None)
  | Some d =>
      let old := default [] (heap w !! message) in
      let n := Nat.min (length d) (length old) in
      ([EvRead message (Some n)],
       set_heap (fun h => <[message := take n d ++ drop n old]> h) w,
       Ret (Some n))
  end.

(** The bytes a slice shows, now. *)
Definition view (h : list bytes) (data : Slice) : bytes :=
  take (len data) (default [] (h !! array data)).

Definition load (data : Slice) : M bytes := fun w =>
  ([], w, Ret (view (heap w) data)).

(** [dataCh <- data].  The channel holds up to 1000 slices and the send
    waits while it is full; a turn of the listener is taken when there is
    room. *)
Definition chanSend (data : Slice) : M unit := fun w =>
  ([EvSend data], set_dataCh (fun q => q ++ [data]) w, Ret tt).

(** ** The fan-out router *)

Record Destination : Type := mkDestination {
  Address : bytes;
  Regex : Regexp;
  Replace : bytes;
}.

(** The body of the innermost loop, the same in both versions: rewrite
    the key for destination [i], send the packet on its socket, and on a
    failed write close the socket and dial again. *)
Definition forward (p : Packet) (i : nat) (destination : Destination)
    (destConns : list Conn) : M (list Conn) :=
  let key := ReplaceAll (Regex destination) (Key p) (Replace destination) in
  let packet := Sprintf_s_colon_s key (Body p) in
  match destConns !! i with
  | None => panic
  | Some conn =>
      ok <- Write conn packet;;
      if ok : bool then ret destConns
      else
        log_Printf "ERROR: writing to UDP socket - %s";;;
        Close conn;;;
        r <- DialTimeout (Address destination) Second;;
        match r with
        | None => log_Fatalf "ERROR: UDP connection failed - %s"
        | Some conn' => ret (<[i := conn']> destConns)
        end
  end.

(** [for i, destination := range destinations], from index [i] on. *)
Fixpoint forDestinations (p : Packet) (i : nat) (rest : list Destination)
    (destConns : list Conn) : M (list Conn) :=
  match rest with
  | [] => ret destConns
  | destination :: rest' =>
      destConns' <- forward p i destination destConns;;
      forDestinations p (S i) rest' destConns'
  end.

(** [for _, p := range parseMessage(data)]. *)
Fixpoint forPackets (destinations : list Destination) (ps : list Packet)
    (destConns : list Conn) : M (list Conn) :=
  match ps with
  | [] => ret destConns
  | p :: ps' =>
      destConns' <- forDestinations p 0 destinations destConns;;
      forPackets destinations ps' destConns'
  end.

(** The first loop of [processData]: one socket per destination, in
    order. *)
Fixpoint dialAll (rest : list Destination) (destConns : list Conn)
    : M (list Conn) :=
  match rest with
  | [] => ret destConns
  | destination :: rest' =>
      r <- DialTimeout (Address destination) Second;;
      match r with
      | None => log_Fatalf "ERROR: UDP connection failed - %s"
      | Some conn => dialAll rest' (destConns ++ [conn])
      end
  end.

(** [for data := range dataCh], over the slices the channel delivers. *)
Fixpoint forData (destinations : list Destination) (received : list Slice)
    (destConns : list Conn) : M (list Conn) :=
  match received with
  | [] => ret destConns
  | data :: received' =>
      bs <- load data;;
      destConns' <- forPackets destinations (parseMessage bs) destConns;;
      forData destinations received' destConns'
  end.

(** [processData] of version 0.3.1, for the slices [received] from the
    channel (the Go loop then waits for the next one). *)
Definition processData (received : list Slice)
    (destinations : list Destination) : M (list Conn) :=
  destConns <- dialAll destinations [];;
  forData destinations received destConns.

(** ** The ingress listener *)

(** Version 0.3.1: what [udpListener] does before its loop. *)
Definition udpListenerSetup (address : bytes) : M unit :=
  log_Printf "listening on %s";;;
  ok <- ListenUDP address;;
  if ok : bool then
    ok' <- SetReadBuffer (1024 * 1024)%N;;
    if ok' : bool then ret tt else log_Printf "ERROR: SetReadBuffer - %s"
  else log_Fatalf "ERROR: ListenUDP - %s".

(** Version 0.3.1: one turn of the loop of [udpListener]. *)
Definition udpListenerTurn (incoming : option bytes) : M unit :=
  message <- make 512;;
  r <- ReadFromUDP incoming message;;
  match r with
  | None => log_Printf "ERROR: reading UDP packet from %+v - %s"
  | Some n =>
      log_Printf "msg: %s (%d)";;;
      chanSend (mkSlice message n)
  end.

Fixpoint udpListenerLoop (incomings : list (option bytes)) : M unit :=
  match incomings with
  | [] => ret tt
  | incoming :: rest => udpListenerTurn incoming;;; udpListenerLoop rest
  end.

Definition udpListener (address : bytes) (incomings : list (option bytes))
    : M unit :=
  udpListenerSetup address;;; udpListenerLoop incomings.

(** Version 0.1: one turn of the loop of [udpListener], which reads into
    the one array [message] and routes at once. *)
Definition udpListenerTurn_v01 (destinations : list Destination)
    (message : nat) (incoming : option bytes) (destConns : list Conn)
    : M (list Conn) :=
  r <- ReadFromUDP incoming message;;
  match r with
  | None =>
      log_Printf "ERROR: reading UDP packet from %+v - %s";;; ret destConns
  | Some n =>
      log_Printf "message: %s (%d)";;;
      bs <- load (mkSlice message n);;
      forPackets destinations (parseMessage bs) destConns
  end.

Fixpoint udpListenerLoop_v01 (destinations : list Destination)
    (message : nat) (incomings : list (option bytes))
    (destConns : list Conn) : M (list Conn) :=
  match incomings with
  | [] => ret destConns
  | incoming :: rest =>
      destConns' <-
        udpListenerTurn_v01 destinations message incoming destConns;;
      udpListenerLoop_v01 destinations message rest destConns'
  end.

Definition udpListener_v01 (address : bytes)
    (destinations : list Destination) (incomings : list (option bytes))
    : M (list Conn) :=
  log_Printf "listening on %s";;;
  ok <- ListenUDP address;;
  if ok : bool then
    destConns <- dialAll destinations [];;
    message <- make 512;;
    udpListenerLoop_v01 destinations message incomings destConns
  else log_Fatalf "ERROR: ListenUDP - %s".

(** ** Start-up *)

Record Flags : Type := mkFlags {
  address : bytes;
  destinationAddresses : list bytes;
  showVersion : bool;
}.

Section Main.

(** [regexp.MustCompile], which panics ([None]) on a pattern it cannot
    parse. *)
Variable MustCompile : bytes -> option Regexp.

(** One round of the loop over [destinationAddresses]; [None] when an
    index is out of range or the pattern does not compile, which both
    panic. *)
Definition parseDestination (destinationAddress : bytes)
    : option Destination :=
  let parts := Split destinationAddress COLON in
  p0 ← parts !! 0;
  p1 ← parts !! 1;
  re ← parts !! 2 ≫= MustCompile;
  p3 ← parts !! 3;
  Some (mkDestination (Sprintf_s_colon_s p0 p1) re p3).

Fixpoint parseDestinations (rest : list bytes)
    (destinations : list Destination) : M (list Destination) :=
  match rest with
  | [] => ret destinations
  | destinationAddress :: rest' =>
      match parseDestination destinationAddress with
      | None => panic
      | Some destination =>
          parseDestinations rest' (destinations ++ [destination])
      end
  end.

(** [main] up to the point where the work starts: the version switch,
    the destinations, the check that there is one. *)
Definition startup (flags : Flags) : M (option (list Destination)) :=
  if showVersion flags then
    Printf "statsdtee v%s (built w/%s)\n";;; ret None
  else
    destinations <- parseDestinations (destinationAddresses flags) [];;
    if decide (length destinations = 0) then
      log_Fatalf "must specify at least one --destination-address"
    else ret (Some destinations).

(** [main] of version 0.3.1.  It ends by starting [udpListener] as a
    goroutine and entering [processData]; the slices [received] are those
    the channel delivers to it. *)
Definition main (flags : Flags) (received : list Slice) : M unit :=
  s <- startup flags;;
  match s with
  | None => ret tt
  | Some destinations =>
      emit (EvGOMAXPROCS 2);;;
      emit EvNotify;;;
      emit EvGo;;;
      processData received destinations;;; ret tt
  end.

(** [main] of version 0.1. *)
Definition main_v01 (flags : Flags) (incomings : list (option bytes))
    : M unit :=
  s <- startup flags;;
  match s with
  | None => ret tt
  | Some destinations =>
      emit EvNotify;;;
      udpListener_v01 (address flags) destinations incomings;;; ret tt
  end.

End Main.

(** ** Definitions used to state the properties *)

(** A run of bytes that satisfy [p], as long as possible first, then
    shorter: what a greedy repetition of a one-byte pattern tries. *)
Fixpoint greedy (p : byte -> bool) (pos : nat) (s : bytes) (caps : Caps)
    (k : Cont) : option Caps :=
  match s with
  | c :: s' =>
      if p c then orElse (greedy p (S pos) s' caps k) (k pos s caps)
      else k pos s caps
  | [] => k pos s caps
  end.

(** A valid line of a buffer: not empty, with a colon, with a byte other
    than a colon before its first colon; and, being a line, without a
    newline. *)
Definition validLine (line : bytes) : Prop :=
  line <> [] /\ (NL ∉ line) /\ (COLON ∈ line) /\ head line <> Some COLON.

(** [p] is [line] split at its first colon. *)
Definition splitsAs (line : bytes) (p : Packet) : Prop :=
  exists i, IndexByte line COLON = Some i
            /\ Key p = take i line /\ Body p = drop (S i) line.

(** Where a continuation is entered from a match that started at [pos]
    on [s] with registers [caps]. *)
Definition reached (pos : nat) (s : bytes) (caps : Caps) (k : Cont)
    (c : Caps) : Prop :=
  exists pos' s' caps',
    k pos' s' caps' = Some c /\ pos <= pos'
    /\ s' = drop (pos' - pos) s /\ pos' - pos <= length s
    /\ length caps' = length caps.


(** The packet the router makes of record [p] for a destination. *)
Definition packetFor (destination : Destination) (p : Packet) : bytes :=
  Sprintf_s_colon_s
    (ReplaceAll (Regex destination) (Key p) (Replace destination)) (Body p).

(** The next call of [conn.Write], or of [net.DialTimeout], fails. *)
Definition writeFails (w : World) : Prop := head (writes w) = Some false.
Definition dialFails (w : World) : Prop := head (dials w) = Some false.

(** The datagrams given to the network, in order: the socket, the
    payload, and whether the write went through. *)
Definition written (evs : list Event) : list (Conn * bytes * bool) :=
  omap (fun e => match e with
                 | EvWrite conn packet ok => Some (conn, packet, ok)
                 | _ => None
                 end) evs.

(** The same, as remote address and payload. *)
Definition sent (evs : list Event) : list (bytes * bytes) :=
  (fun '(conn, packet, _) => (RemoteAddr conn, packet)) <$> written evs.

(** The dials attempted, in order. *)
Definition dialed (evs : list Event) : list (bytes * N) :=
  omap (fun e => match e with
                 | EvDial addr timeout _ => Some (addr, timeout)
                 | _ => None
                 end) evs.

(** What fanning out the records [ps] sends: for each record in turn, one
    packet to each destination in turn. *)
Definition fanout (destinations : list Destination) (ps : list Packet)
    : list (bytes * bytes) :=
  ps ≫= (fun p => (fun d => (Address d, packetFor d p)) <$> destinations).

(** Socket [i] is dialed toward destination [i]. *)
Definition linked (destinations : list Destination) (destConns : list Conn)
    : Prop :=
  Forall2 (fun d conn => RemoteAddr conn = Address d) destinations destConns.

(** What a run of the router's loops comes to, for the packets [expected]
    it is to send toward [destinations]: it returns having sent them all,
    in order, with every socket still toward its destination and a heap
    that satisfies [hp]; or the process exits with status 1 having sent
    the first of them, in order; it does not panic. *)
Definition sendsAll (expected : list (bytes * bytes))
    (destinations : list Destination) (hp : list bytes -> Prop)
    (r : list Event * World * Outcome (list Conn)) : Prop :=
  match outcome r with
  | Ret destConns' =>
      hp (heap (world r)) /\ linked destinations destConns'
      /\ sent (events r) = expected
  | Exit status => status = 1 /\ sent (events r) `prefix_of` expected
  | Panic => False
  end.

(** The array [message] of the heap holds 512 bytes. *)
Definition bufferAt (message : nat) (h : list bytes) : Prop :=
  exists arr, h !! message = Some arr /\ length arr = 512.

(** What the router sends for the datagrams and read errors [incomings],
    each datagram cut to the 512 bytes an array holds. *)
Definition routed (destinations : list Destination)
    (incomings : list (option bytes)) : list (bytes * bytes) :=
  incomings ≫= (fun incoming =>
    match incoming with
    | Some d => fanout destinations (parseMessage (take 512 d))
    | None => []
    end).

(** *** A configuration to try things on *)

(** The pattern of a literal text. *)
Definition literal (text : bytes) : Regexp :=
  foldr (fun c r => OpConcat (OpLiteral c) r) OpEmptyMatch text.

(** The pattern that matches [stats.] at the start of the text. *)
Definition statsPrefix : Regexp := OpConcat OpBeginText (literal (B "stats.")).

Definition prodDest : Destination :=
  mkDestination (B "127.0.0.1:9001") statsPrefix (B "prod.stats.").
Definition devDest : Destination :=
  mkDestination (B "127.0.0.1:9002") statsPrefix (B "dev.stats.").
Definition sampleDests : list Destination := [prodDest; devDest].

Definition sampleConns : list Conn :=
  [mkConn 0 (B "127.0.0.1:9001"); mkConn 1 (B "127.0.0.1:9002")].

Definition sampleData : bytes := B "stats.counter:5|c" ++ [NL].
Definition samplePacket : Packet := mkPacket (B "stats.counter") (B "5|c").

(** A world in which every call succeeds, and worlds in which the next
    write fails, with the dial after it succeeding or failing. *)
Definition quiet : World := mkWorld true true [] [] 0 [] [].
Definition flaky : World := mkWorld true true [] [false] 2 [] [].
Definition broken : World := mkWorld true true [false] [false] 2 [] [].

(** The arrays read into, in order. *)
Definition readArrays (evs : list Event) : list nat :=
  omap (fun e => match e with
                 | EvRead array _ => Some array
                 | _ => None
                 end) evs.

(** No array is read into twice. *)
Definition freshBufferPerRead (evs : list Event) : Prop :=
  NoDup (readArrays evs).

(** The slices in the channel are of arrays of the heap. *)
Definition queueInHeap (w : World) : Prop :=
  Forall (fun data => array data < length (heap w)) (dataCh w).


(** Three reads: a datagram, an error, a datagram of 600 bytes. *)
Definition sampleIncomings : list (option bytes) :=
  [Some sampleData; None; Some (replicate 600 x41)].

#[global] Instance validLine_dec (line : bytes) : Decision (validLine line).
Proof. unfold validLine. apply _. Defined.

#[global] Instance writeFails_dec (w : World) : Decision (writeFails w).
Proof. unfold writeFails. apply _. Defined.
#[global] Instance dialFails_dec (w : World) : Decision (dialFails w).
Proof. unfold dialFails. apply _. Defined.

(** Three lines of a statsd datagram. *)
Definition sampleLines : list bytes :=
  [B "stats.counter:5|c"; B "a:b:c"; B "k:"].

(** *** Further definitions, for the properties beyond the claims *)

(** A record as a line: key, colon, body. *)
Definition render (p : Packet) : bytes := Sprintf_s_colon_s (Key p) (Body p).

(** A record that a line can carry: a key that is not empty and has no
    colon, and no newline in key or body. *)
Definition wellFormed (p : Packet) : Prop :=
  Key p <> [] /\ (COLON ∉ Key p) /\ (NL ∉ Key p) /\ (NL ∉ Body p).

#[global] Instance wellFormed_dec (p : Packet) : Decision (wellFormed p).
Proof. unfold wellFormed. apply _. Defined.

(** The sockets that dialing the destinations [ds] in turn gives, when
    the next handle is [n], and the events of dialing them. *)
Definition freshConns (n : nat) (ds : list Destination) : list Conn :=
  zip_with mkConn (seq n (length ds)) (Address <$> ds).

Definition dialEvents (n : nat) (ds : list Destination) : list Event :=
  (fun conn => EvDial (RemoteAddr conn) Second (Some conn))
    <$> freshConns n ds.

(** The next [k] dials succeed. *)
Definition dialsOk (k : nat) (w : World) : Prop :=
  Forall (eq true) (take k (dials w)).

#[global] Instance dialsOk_dec (k : nat) (w : World) : Decision (dialsOk k w).
Proof. unfold dialsOk. apply _. Defined.

(** The sockets closed, in order. *)
Definition closes (evs : list Event) : list Conn :=
  omap (fun e => match e with
                 | EvClose conn => Some conn
                 | _ => None
                 end) evs.

(** With the sockets [closed] closed already, the events never write on a
    closed socket and never close one again. *)
Fixpoint closedOk (closed : list Conn) (evs : list Event) : Prop :=
  match evs with
  | [] => True
  | EvWrite conn _ _ :: rest => (conn ∉ closed) /\ closedOk closed rest
  | EvClose conn :: rest => (conn ∉ closed) /\ closedOk (conn :: closed) rest
  | _ :: rest => closedOk closed rest
  end.

(** The sockets in use are distinct, none of them is closed, and every
    handle given out is below the next one. *)
Definition tidy (w : World) (destConns closed : list Conn) : Prop :=
  NoDup destConns
  /\ Forall (fun conn => conn_id conn < nextConn w) (destConns ++ closed)
  /\ (forall conn, conn ∈ destConns -> conn ∉ closed).

(** A run that starts with the sockets [closed] closed keeps to
    [closedOk], and returns with sockets that are [tidy]. *)
Definition staysTidy (closed : list Conn)
    (r : list Event * World * Outcome (list Conn)) : Prop :=
  closedOk closed (events r)
  /\ match outcome r with
     | Ret destConns' =>
         tidy (world r) destConns' (rev (closes (events r)) ++ closed)
     | _ => True
     end.

(** With [open] sockets open, the events never have more than [n] open
    at once, and close only when one is open. *)
Fixpoint openOk (n open : nat) (evs : list Event) : Prop :=
  match evs with
  | [] => True
  | EvDial _ _ (Some _) :: rest => open < n /\ openOk n (S open) rest
  | EvClose _ :: rest => 0 < open /\ openOk n (pred open) rest
  | _ :: rest => openOk n open rest
  end.

(** The count of open sockets after the events. *)
Fixpoint openAfter (open : nat) (evs : list Event) : nat :=
  match evs with
  | [] => open
  | EvDial _ _ (Some _) :: rest => openAfter (S open) rest
  | EvClose _ :: rest => openAfter (pred open) rest
  | _ :: rest => openAfter open rest
  end.

(** A run that keeps to [openOk] and, when it returns, has [open']
    sockets open. *)
Definition keepsOpen {A} (n open open' : nat)
    (r : list Event * World * Outcome A) : Prop :=
  openOk n open (events r)
  /\ match outcome r with
     | Ret _ => openAfter open (events r) = open'
     | _ => True
     end.

(** Two worlds in which the network answers alike: the same scripts of
    dials and writes, the same next handle. *)
Definition sameNet (w w' : World) : Prop :=
  dials w = dials w' /\ writes w = writes w' /\ nextConn w = nextConn w'.

(** Two runs that write the same datagrams on the same sockets with the
    same results, end alike and leave the network alike. *)
Definition agree {A} (r r' : list Event * World * Outcome A) : Prop :=
  written (events r) = written (events r')
  /\ outcome r = outcome r'
  /\ sameNet (world r) (world r').

(** The slices sent on the channel, in order. *)
Definition sends (evs : list Event) : list Slice :=
  omap (fun e => match e with
                 | EvSend data => Some data
                 | _ => None
                 end) evs.

(** The results of the reads, in order: the count of bytes, or [None]
    for an error. *)
Definition readResults (evs : list Event) : list (option nat) :=
  omap (fun e => match e with
                 | EvRead _ n => Some n
                 | _ => None
                 end) evs.

(** What a read returns when the socket delivers [incoming]. *)
Definition readSize (incoming : option bytes) : option nat :=
  match incoming with
  | Some d => Some (Nat.min (length d) 512)
  | None => None
  end.

(** The datagrams among what the socket delivers. *)
Definition arrived (incomings : list (option bytes)) : list bytes :=
  omap (fun incoming : option bytes => incoming) incomings.

(** [StringArray.Set], called by the flag package once for every
    [-destination-address] on the command line, in order. *)
Definition StringArray_Set (a : list bytes) (s : bytes) : list bytes :=
  a ++ [s].

(** A compiler of patterns to try the start-up on: it takes every
    pattern as literal text. *)
Definition compileLiteral (pattern : bytes) : option Regexp :=
  Some (literal pattern).

(** The flags of a start with one destination, and with one that lacks
    its pattern and template. *)
Definition oneFlags : Flags := mkFlags (B ":8125") [B "h:1:a:b"] false.
Definition shortFlags : Flags := mkFlags (B ":8125") [B "127.0.0.1:9001"] false.

(** * Properties *)

(** ** Splitting and joining *)

Section SplitJoin.

Variable sep : byte.

Lemma Split_nonempty (s : bytes) : Split s sep <> [].
Proof.
  destruct s as [|c s]; simpl; [done|].
  case_decide; [done|]. by destruct (Split s sep).
Qed.

Lemma Split_no_sep (s : bytes) : Forall (fun l => sep ∉ l) (Split s sep).
Proof.
  induction s as [|c s IH]; simpl.
  - repeat constructor. by intros ?%elem_of_nil.
  - case_decide as Hc.
    + constructor; [by intros ?%elem_of_nil | done].
    + destruct (Split s sep) as [|l ls]; inversion IH; simplify_eq.
      * repeat constructor. set_solver.
      * constructor; [set_solver | done].
Qed.

Lemma Split_fresh (l : bytes) : sep ∉ l -> Split l sep = [l].
Proof.
  induction l as [|c l IH]; intros Hl; simpl; [done|].
  rewrite decide_False by set_solver.
  rewrite IH by set_solver. done.
Qed.

(** The step of Go's loop: up to the first separator, then the rest. *)
Lemma Split_cut (l rest : bytes) :
  sep ∉ l -> Split (l ++ sep :: rest) sep = l :: Split rest sep.
Proof.
  induction l as [|c l IH]; intros Hl; simpl.
  - by rewrite decide_True.
  - rewrite decide_False by set_solver.
    rewrite IH by set_solver. done.
Qed.

Lemma Join_cons (l : bytes) (ls : list bytes) :
  ls <> [] -> Join (l :: ls) sep = l ++ sep :: Join ls sep.
Proof. by destruct ls. Qed.

Lemma Join_Split (s : bytes) : Join (Split s sep) sep = s.
Proof.
  induction s as [|c s IH]; simpl; [done|].
  pose proof (Split_nonempty s) as Hne.
  case_decide as Hc.
  - rewrite Join_cons by done. simpl. by rewrite IH, Hc.
  - destruct (Split s sep) as [|l ls] eqn:E; [done|].
    destruct ls as [|l' ls].
    + simpl in *. by rewrite IH.
    + rewrite Join_cons by done. rewrite Join_cons in IH by done.
      simpl. by f_equal.
Qed.

Lemma Split_Join (lines : list bytes) :
  lines <> [] -> Forall (fun l => sep ∉ l) lines ->
  Split (Join lines sep) sep = lines.
Proof.
  induction lines as [|l ls IH]; intros Hne Hall; [done|].
  inversion Hall as [|? ? Hl Hls]; subst.
  destruct ls as [|l' ls].
  - simpl. by apply Split_fresh.
  - rewrite Join_cons by done. rewrite Split_cut by done.
    by rewrite IH.
Qed.

End SplitJoin.

(** ** The first occurrence of a byte *)

Lemma IndexByte_Some (s : bytes) (c : byte) (i : nat) :
  IndexByte s c = Some i ->
  s = take i s ++ c :: drop (S i) s /\ (c ∉ take i s) /\ i < length s.
Proof.
  revert i. induction s as [|x s IH]; intros i; cbn [IndexByte]; [done|].
  case_decide as Hx.
  - intros [= <-]. subst x. cbn. split; [done|]. split; [|lia].
    by intros ?%elem_of_nil.
  - destruct (IndexByte s c) as [j|] eqn:E; [|done].
    intros [= <-]. destruct (IH j eq_refl) as (Heq & Hnot & Hlt).
    cbn [take drop length]. split; [|split].
    + cbn. by rewrite <- Heq.
    + rewrite not_elem_of_cons. split; [congruence | done].
    + lia.
Qed.

Lemma IndexByte_None (s : bytes) (c : byte) :
  IndexByte s c = None <-> c ∉ s.
Proof.
  induction s as [|x s IH]; cbn [IndexByte].
  - split; [intros _ ?%elem_of_nil; done | done].
  - rewrite not_elem_of_cons. case_decide as Hx.
    + split; [done | intros []; congruence].
    + destruct (IndexByte s c); cbn.
      * split; [done|]. intros [_ Hs]. by apply IH in Hs.
      * split; [|done]. intros _. split; [congruence | by apply IH].
Qed.

(** The first occurrence is where a split with no [c] on the left
    puts it. *)
Lemma IndexByte_app (l r : bytes) (c : byte) :
  c ∉ l -> IndexByte (l ++ c :: r) c = Some (length l).
Proof.
  induction l as [|x l IH]; intros Hl; cbn [IndexByte app length].
  - by rewrite decide_True.
  - apply not_elem_of_cons in Hl as [Hx Hl].
    rewrite decide_False by congruence. by rewrite IH.
Qed.

(** ** What the matcher does on [packetRegexp] *)

Lemma starLoop_oneByte (p : byte -> bool) (fuel pos : nat) (s : bytes)
    (caps : Caps) (k : Cont) :
  length s < fuel ->
  starLoop (oneByte p) fuel pos s caps k = greedy p pos s caps k.
Proof.
  revert pos s. induction fuel as [|fuel IH]; intros pos s Hlen; [lia|].
  destruct s as [|c s]; simpl; [done|].
  destruct (p c); [|done].
  rewrite decide_True by lia.
  rewrite IH by (simpl in Hlen; lia). done.
Qed.

(** A repetition of bytes other than a newline, followed by the end of the
    text, takes the whole rest or fails. *)
Lemma greedy_to_end (pos : nat) (s : bytes) (caps : Caps) (k : Cont) :
  (forall pos' c s' caps', k pos' (c :: s') caps' = None) ->
  greedy (fun c => negb (bool_decide (c = NL))) pos s caps k =
    if decide (NL ∈ s) then None else k (pos + length s) [] caps.
Proof.
  intros Hk. revert pos. induction s as [|c s IH]; intros pos; cbn [greedy].
  - rewrite decide_False by set_solver. by rewrite Nat.add_0_r.
  - case_bool_decide as Hc; cbn [negb].
    + rewrite Hk. rewrite decide_True by set_solver. done.
    + rewrite IH, Hk.
      replace (S pos + length s) with (pos + length (c :: s)) by (simpl; lia).
      destruct (decide (NL ∈ s)).
      * rewrite decide_True by set_solver. done.
      * rewrite decide_False by set_solver. by destruct (k _ _ _).
Qed.

(** A repetition of bytes other than a colon, followed by a colon, stops
    at the first colon. *)
Lemma greedy_to_colon (pos : nat) (s : bytes) (caps : Caps) (k k' : Cont) :
  (forall pos' caps', k pos' [] caps' = None) ->
  (forall pos' c s' caps',
     k pos' (c :: s') caps' =
       if decide (c = COLON) then k' (S pos') s' caps' else None) ->
  greedy (inClass true [COLON]) pos s caps k =
    match IndexByte s COLON with
    | Some i => k' (S (pos + i)) (drop (S i) s) caps
    | None => None
    end.
Proof.
  intros Hnil Hcons. revert pos.
  induction s as [|c s IH]; intros pos; cbn [greedy IndexByte].
  - apply Hnil.
  - unfold inClass. case_bool_decide as Hc; cbn [xorb].
    + apply list_elem_of_singleton in Hc. subst c.
      rewrite Hcons. rewrite !decide_True by done. simpl.
      by rewrite Nat.add_0_r.
    + rewrite list_elem_of_singleton in Hc.
      rewrite Hcons. rewrite !decide_False by done.
      rewrite IH. destruct (IndexByte s COLON) as [i|]; simpl; [|done].
      replace (pos + S i) with (S (pos + i)) by lia.
      by destruct (k' _ _ _).
Qed.

Lemma packetRegexp_anchored (pos : nat) (s : bytes) :
  0 < pos -> searchFrom packetRegexp pos s = None.
Proof.
  revert pos. induction s as [|c s IH]; intros pos Hpos.
  - cbn. rewrite decide_False by lia. done.
  - cbn [searchFrom]. rewrite IH by lia.
    cbn. rewrite decide_False by lia. done.
Qed.

Lemma packetRegexp_at_start (line : bytes) :
  searchFrom packetRegexp 0 line =
    match IndexByte line COLON with
    | Some (S i) =>
        if decide (NL ∈ drop (S (S i)) line) then None
        else Some [Some (0, length line); Some (0, S i);
                   Some (S (S i), length line)]
    | _ => None
    end.
Proof.
  destruct line as [|c s].
  - cbn. done.
  - cbn [searchFrom]. rewrite packetRegexp_anchored by lia.
    cbn [packetRegexp matchAt NumSubexp IndexByte oneByte].
    rewrite decide_True by done.
    unfold inClass at 1. case_bool_decide as Hc; cbn [xorb].
    { apply list_elem_of_singleton in Hc. by rewrite decide_True. }
    rewrite list_elem_of_singleton in Hc. rewrite decide_False by done.
    rewrite (starLoop_oneByte (inClass true [COLON])) by lia.
    rewrite (greedy_to_colon _ _ _ _
               (fun p s' caps' =>
                  starLoop (oneByte (fun c0 => negb (bool_decide (c0 = NL))))
                    (S (length s')) p s' (<[1 := Some (0, pred p)]> caps')
                    (fun pos'2 s'2 caps'2 =>
                       match s'2 with
                       | [] => Some (<[0 := Some (0, pos'2)]>
                                       (<[2 := Some (p, pos'2)]> caps'2))
                       | _ :: _ => None
                       end))).
    2: { intros. done. }
    2: { intros pos' c' s' caps'. cbn [oneByte].
         case_bool_decide; [rewrite decide_True by done|rewrite decide_False by done];
         done. }
    destruct (IndexByte s COLON) as [i|] eqn:Ei;
      cbn [fmap option_fmap option_map orElse]; [|done].
    apply IndexByte_Some in Ei as (_ & _ & Hi).
    rewrite starLoop_oneByte by lia.
    rewrite greedy_to_end by done.
    cbn [drop]. destruct (decide (NL ∈ drop (S i) s)); [done|].
    cbn. rewrite length_drop.
    do 4 f_equal; [|do 3 f_equal]; lia.
Qed.

Lemma slice_prefix (b : bytes) (n : nat) : slice b 0 n = take n b.
Proof. unfold slice. by rewrite Nat.sub_0_r, drop_0. Qed.

Lemma slice_suffix (b : bytes) (n : nat) : slice b n (length b) = drop n b.
Proof. unfold slice. apply take_ge. rewrite length_drop. lia. Qed.

(** [FindSubmatch] with [packetRegexp] splits at the first colon, which
    must not come first; text with a newline after that colon does not
    match. *)
Lemma FindSubmatch_packetRegexp (line : bytes) :
  FindSubmatch packetRegexp line =
    match IndexByte line COLON with
    | Some (S i) =>
        if decide (NL ∈ drop (S (S i)) line) then []
        else [line; take (S i) line; drop (S (S i)) line]
    | _ => []
    end.
Proof.
  unfold FindSubmatch, doExecute. rewrite decide_True by lia.
  rewrite drop_0, packetRegexp_at_start.
  destruct (IndexByte line COLON) as [[|i]|]; [done| |done].
  case_decide; [done|]. cbn [fmap list_fmap group].
  rewrite !slice_prefix, slice_suffix. by rewrite firstn_all.
Qed.

Lemma parseLine_spec (line : bytes) :
  parseLine line =
    match IndexByte line COLON with
    | Some (S i) =>
        if decide (NL ∈ drop (S (S i)) line) then []
        else [mkPacket (take (S i) line) (drop (S (S i)) line)]
    | _ => []
    end.
Proof.
  unfold parseLine. case_decide as Hlen.
  - destruct line; [done | simpl in Hlen; lia].
  - rewrite FindSubmatch_packetRegexp.
    destruct (IndexByte line COLON) as [[|i]|]; [done| |done].
    by destruct (decide (NL ∈ drop (S (S i)) line)).
Qed.

Lemma foldl_parseLine (lines : list bytes) (output : list Packet) :
  foldl (fun output line => output ++ parseLine line) output lines =
    output ++ concat (parseLine <$> lines).
Proof.
  revert output. induction lines as [|l ls IH]; intros output; simpl.
  - by rewrite app_nil_r.
  - by rewrite IH, app_assoc.
Qed.

Lemma parseMessage_concat (data : bytes) :
  parseMessage data = concat (parseLine <$> Split data NL).
Proof. unfold parseMessage. by rewrite foldl_parseLine. Qed.

Lemma parseMessage_line (line : bytes) :
  NL ∉ line -> parseMessage line = parseLine line.
Proof.
  intros Hl. rewrite parseMessage_concat, Split_fresh by done.
  simpl. by rewrite app_nil_r.
Qed.

Lemma elem_of_drop_inv (c : byte) (n : nat) (s : bytes) :
  c ∈ drop n s -> c ∈ s.
Proof.
  intros H. rewrite <- (take_drop n s). apply elem_of_app. by right.
Qed.

Lemma validLine_index (line : bytes) :
  validLine line -> exists i, IndexByte line COLON = Some (S i).
Proof.
  intros (_ & _ & Hcolon & Hhead).
  destruct (IndexByte line COLON) as [[|i]|] eqn:E.
  - apply IndexByte_Some in E as (Heq & _). destruct line as [|b line]; [done|].
    cbn in Heq. injection Heq as ->. done.
  - by exists i.
  - by apply IndexByte_None in E.
Qed.

Lemma validLine_parseLine (line : bytes) :
  validLine line ->
  exists p, parseLine line = [p] /\ splitsAs line p.
Proof.
  intros Hv. destruct (validLine_index line Hv) as [i Hi].
  destruct Hv as (_ & Hnl & _).
  exists (mkPacket (take (S i) line) (drop (S (S i)) line)). split.
  - rewrite parseLine_spec, Hi. rewrite decide_False; [done|].
    intros H. by apply elem_of_drop_inv in H.
  - by exists (S i).
Qed.

Lemma valid_lines_records (lines : list bytes) :
  Forall validLine lines ->
  Forall2 splitsAs lines (concat (parseLine <$> lines)).
Proof.
  induction 1 as [|l ls Hl _ IH]; [constructor|].
  destruct (validLine_parseLine l Hl) as (p & Hp & Hs).
  cbn [fmap list_fmap concat]. rewrite Hp. by constructor.
Qed.

(** C1.  A buffer of n valid lines, joined by newlines, parses to n
    records in the order of the lines, each the split of its line at the
    first colon: the key is what comes before it, the body what comes
    after it. *)
Theorem parseMessage_valid_lines (lines : list bytes) :
  Forall validLine lines ->
  Forall2 splitsAs lines (parseMessage (Join lines NL))
  /\ length (parseMessage (Join lines NL)) = length lines.
Proof.
  intros Hv.
  assert (Forall2 splitsAs lines (parseMessage (Join lines NL))) as H.
  { rewrite parseMessage_concat. destruct lines as [|l ls]; [constructor|].
    rewrite Split_Join; [by apply valid_lines_records | done |].
    eapply Forall_impl; [exact Hv|]. by intros ? (_ & ? & _). }
  split; [done|]. symmetry. by eapply Forall2_length.
Qed.

Lemma parseMessage_valid_lines_witness :
  Forall validLine sampleLines
  /\ Forall2 splitsAs sampleLines (parseMessage (Join sampleLines NL))
  /\ length (parseMessage (Join sampleLines NL)) = length sampleLines.
Proof.
  assert (Forall validLine sampleLines) as H.
  { apply (bool_decide_unpack _). vm_compute. exact I. }
  split; [exact H | exact (parseMessage_valid_lines sampleLines H)].
Defined.


Lemma parseLine_colon_first (line : bytes) :
  head line = Some COLON -> parseLine line = [].
Proof.
  intros [l' ->]%head_Some. rewrite parseLine_spec.
  cbn [IndexByte]. by rewrite decide_True.
Qed.

Lemma parseLine_record (line : bytes) (p : Packet) :
  p ∈ parseLine line ->
  Key p <> [] /\ (COLON ∉ Key p) /\ Key p ++ COLON :: Body p = line.
Proof.
  rewrite parseLine_spec.
  destruct (IndexByte line COLON) as [[|i]|] eqn:E;
    [by intros ?%elem_of_nil | | by intros ?%elem_of_nil].
  case_decide; [by intros ?%elem_of_nil|].
  intros ->%list_elem_of_singleton. cbn [Key Body].
  apply IndexByte_Some in E as (Heq & Hnot & Hlt).
  split; [|split]; [|done|by rewrite <- Heq].
  intros Hnil. apply (f_equal length) in Hnil.
  rewrite length_take in Hnil. cbn [length] in Hnil. lia.
Qed.

Lemma elem_of_concat {A} (x : A) (ls : list (list A)) :
  x ∈ concat ls -> exists l, x ∈ l /\ l ∈ ls.
Proof.
  induction ls as [|l ls IH]; cbn [concat]; [by intros ?%elem_of_nil|].
  intros [H|H]%elem_of_app.
  - exists l. split; [done | apply list_elem_of_here].
  - destruct (IH H) as (l' & ? & ?). exists l'.
    split; [done | by apply list_elem_of_further].
Qed.



(** C10.  Every record has a key that is not empty and has no colon, and
    key, colon and body put together are a line of the buffer; a line
    that starts with a colon gives no record. *)
Theorem parseMessage_key_invariant (data : bytes) :
  Forall (fun p => Key p <> [] /\ (COLON ∉ Key p)
                   /\ (Key p ++ COLON :: Body p) ∈ Split data NL)
    (parseMessage data)
  /\ Forall (fun line => head line = Some COLON -> parseMessage line = [])
       (Split data NL).
Proof.
  split.
  - rewrite parseMessage_concat. apply Forall_forall. intros p Hp.
    apply elem_of_concat in Hp as (ps & Hp & Hps).
    apply list_elem_of_fmap in Hps as (line & -> & Hline).
    apply parseLine_record in Hp as (Hk & Hc & Heq).
    by rewrite Heq.
  - eapply Forall_impl; [apply Split_no_sep|].
    intros l Hl Hhead. cbn beta in *.
    rewrite parseMessage_line by done. by apply parseLine_colon_first.
Qed.

(** ** The matcher moves forward *)

Lemma reached_here (pos : nat) (s : bytes) (caps : Caps) (k : Cont) (c : Caps) :
  k pos s caps = Some c -> reached pos s caps k c.
Proof.
  intros H. exists pos, s, caps. rewrite Nat.sub_diag, drop_0.
  repeat split; [done | lia | lia].
Qed.

Lemma reached_trans (pos pos1 : nat) (s : bytes) (caps caps1 : Caps)
    (k : Cont) (c : Caps) :
  pos <= pos1 -> pos1 - pos <= length s -> length caps1 = length caps ->
  reached pos1 (drop (pos1 - pos) s) caps1 k c -> reached pos s caps k c.
Proof.
  intros Hle Hlen Hcaps (pos' & s' & caps' & Hk & Hle' & -> & Hlen' & Hcaps').
  exists pos', (drop (pos' - pos) s), caps'.
  rewrite length_drop in Hlen'. rewrite drop_drop in Hk.
  replace (pos1 - pos + (pos' - pos1)) with (pos' - pos) in Hk by lia.
  repeat split; [done | lia | lia | congruence].
Qed.

Lemma oneByte_reached (p : byte -> bool) (pos : nat) (s : bytes)
    (caps : Caps) (k : Cont) (c : Caps) :
  oneByte p pos s caps k = Some c -> reached pos s caps k c.
Proof.
  unfold oneByte. destruct s as [|x s]; [done|]. destruct (p x); [|done].
  intros H. exists (S pos), s, caps.
  replace (S pos - pos) with 1 by lia. cbn.
  repeat split; [done | lia | lia].
Qed.

Lemma starLoop_reached
    (body : nat -> bytes -> Caps -> Cont -> option Caps) :
  (forall pos s caps k c,
     body pos s caps k = Some c -> reached pos s caps k c) ->
  forall fuel pos s caps k c,
    starLoop body fuel pos s caps k = Some c -> reached pos s caps k c.
Proof.
  intros Hbody. induction fuel as [|fuel IH]; intros pos s caps k c;
    cbn [starLoop].
  - apply reached_here.
  - destruct (body pos s caps _) as [c'|] eqn:E; cbn [orElse].
    + intros [= ->]. apply Hbody in E
        as (pos1 & s1 & caps1 & Hk & Hle & -> & Hlen & Hcaps).
      case_decide; [|done]. apply IH in Hk.
      by eapply reached_trans.
    + apply reached_here.
Qed.

Lemma matchAt_reached (r : Regexp) (pos : nat) (s : bytes) (caps : Caps)
    (k : Cont) (c : Caps) :
  matchAt r pos s caps k = Some c -> reached pos s caps k c.
Proof.
  revert pos s caps k c.
  induction r as [| b | neg set | | | | | i name sub IH | sub IH | sub IH
                 | sub IH | r1 IH1 r2 IH2 | r1 IH1 r2 IH2];
    intros pos s caps k c; cbn [matchAt].
  - apply reached_here.
  - apply oneByte_reached.
  - apply oneByte_reached.
  - apply oneByte_reached.
  - apply oneByte_reached.
  - case_decide; [apply reached_here | done].
  - destruct s; [apply reached_here | done].
  - intros (pos' & s' & caps' & Hk & Hle & -> & Hlen & Hcaps)%IH.
    exists pos', (drop (pos' - pos) s), (<[i := Some (pos, pos')]> caps').
    rewrite length_insert. by repeat split.
  - by apply starLoop_reached.
  - intros (pos1 & s1 & caps1 & Hk & Hle & -> & Hlen & Hcaps)%IH.
    apply starLoop_reached in Hk; [|done].
    by eapply reached_trans.
  - destruct (matchAt sub pos s caps k) as [c'|] eqn:E; cbn [orElse].
    + intros [= ->]. by apply IH.
    + apply reached_here.
  - intros (pos1 & s1 & caps1 & Hk & Hle & -> & Hlen & Hcaps)%IH1.
    apply IH2 in Hk. by eapply reached_trans.
  - destruct (matchAt r1 pos s caps k) as [c'|] eqn:E; cbn [orElse].
    + intros [= ->]. by apply IH1.
    + apply IH2.
Qed.

(** A match found from [pos] lies between [pos] and the end of the input,
    and register 0 holds its bounds. *)
Lemma searchFrom_bounds (re : Regexp) (pos : nat) (s : bytes) (a : Caps) :
  searchFrom re pos s = Some a ->
  exists lo hi, a !! 0 = Some (Some (lo, hi))
                /\ pos <= lo /\ lo <= hi /\ hi <= pos + length s.
Proof.
  revert pos. induction s as [|x s IH]; intros pos; cbn [searchFrom].
  - destruct (matchAt re pos [] _ _) as [c|] eqn:E; cbn [orElse]; [|done].
    intros [= ->]. apply matchAt_reached in E
      as (pos' & s' & caps' & [= <-] & Hle & -> & Hlen & Hcaps).
    exists pos, pos'. rewrite length_replicate in Hcaps.
    rewrite list_lookup_insert_eq by lia. cbn in Hlen. repeat split; lia.
  - destruct (matchAt re pos (x :: s) _ _) as [c|] eqn:E; cbn [orElse].
    + intros [= ->]. apply matchAt_reached in E
        as (pos' & s' & caps' & [= <-] & Hle & -> & Hlen & Hcaps).
      exists pos, pos'. rewrite length_replicate in Hcaps.
      rewrite list_lookup_insert_eq by lia. repeat split; lia.
    + intros (lo & hi & H0 & ? & ? & ?)%IH. exists lo, hi.
      cbn [length]. repeat split; [done | lia..].
Qed.

Lemma doExecute_bounds (re : Regexp) (b : bytes) (pos : nat) (a : Caps) :
  doExecute re b pos = Some a ->
  exists lo hi, a !! 0 = Some (Some (lo, hi))
                /\ pos <= lo /\ lo <= hi /\ hi <= length b.
Proof.
  unfold doExecute. case_decide as Hpos; [|done].
  intros (lo & hi & H0 & ? & ? & Hhi)%searchFrom_bounds.
  rewrite length_drop in Hhi. exists lo, hi. repeat split; [done | lia..].
Qed.

Lemma whole_take (nmatch : nat) (a : Caps) (lo hi : nat) :
  0 < nmatch -> a !! 0 = Some (Some (lo, hi)) ->
  whole (take nmatch a) = (lo, hi).
Proof.
  intros Hn H0. unfold whole. rewrite lookup_take_lt by done. by rewrite H0.
Qed.

(** ** The fuel of a repetition is enough *)

Lemma starLoop_ext (body : nat -> bytes -> Caps -> Cont -> option Caps) :
  (forall pos s caps k1 k2,
     (forall pos' s' caps', k1 pos' s' caps' = k2 pos' s' caps') ->
     body pos s caps k1 = body pos s caps k2) ->
  forall fuel pos s caps k1 k2,
    (forall pos' s' caps', k1 pos' s' caps' = k2 pos' s' caps') ->
    starLoop body fuel pos s caps k1 = starLoop body fuel pos s caps k2.
Proof.
  intros Hbody. induction fuel as [|fuel IH]; intros pos s caps k1 k2 Hk;
    cbn [starLoop]; [apply Hk|].
  rewrite (Hk pos s caps). f_equal. apply Hbody.
  intros pos' s' caps'. case_decide; [by apply IH | done].
Qed.

Lemma matchAt_ext (r : Regexp) (pos : nat) (s : bytes) (caps : Caps)
    (k1 k2 : Cont) :
  (forall pos' s' caps', k1 pos' s' caps' = k2 pos' s' caps') ->
  matchAt r pos s caps k1 = matchAt r pos s caps k2.
Proof.
  revert pos s caps k1 k2.
  induction r as [| b | neg set | | | | | i name sub IH | sub IH | sub IH
                 | sub IH | r1 IH1 r2 IH2 | r1 IH1 r2 IH2];
    intros pos s caps k1 k2 Hk; cbn [matchAt];
    try (unfold oneByte; destruct s as [|c s']; [done|];
         by rewrite Hk).
  - by rewrite Hk.
  - destruct s; [apply Hk | done].
  - apply IH. intros. apply Hk.
  - by apply starLoop_ext.
  - apply IH. intros. by apply starLoop_ext.
  - by rewrite (IH pos s caps k1 k2 Hk), Hk.
  - apply IH1. intros. by apply IH2.
  - by rewrite (IH1 pos s caps k1 k2 Hk), (IH2 pos s caps k1 k2 Hk).
Qed.

(** With more fuel than the input is long, a repetition gives the same
    result whatever the fuel: the rounds that [matchAt] allows are
    enough. *)
Lemma starLoop_fuel (r : Regexp) (fuel fuel' pos : nat) (s : bytes)
    (caps : Caps) (k : Cont) :
  length s < fuel -> length s < fuel' ->
  starLoop (matchAt r) fuel pos s caps k
  = starLoop (matchAt r) fuel' pos s caps k.
Proof.
  revert fuel' pos s caps. induction fuel as [|fuel IH];
    intros fuel' pos s caps H1 H2; [lia|].
  destruct fuel' as [|fuel']; [lia|]. cbn [starLoop]. f_equal.
  apply matchAt_ext. intros pos' s' caps'.
  case_decide; [apply IH; lia | done].
Qed.

(** ** Rewriting a key *)


(** More fuel than the rounds left changes nothing: the loop of
    [replaceAll] is never cut short. *)
Lemma replaceAllLoop_fuel (re : Regexp) (nmatch : nat) (src repl : bytes)
    (fuel fuel' lastMatchEnd searchPos : nat) (buf : bytes) :
  0 < nmatch ->
  S (length src) - searchPos <= fuel ->
  S (length src) - searchPos <= fuel' ->
  replaceAllLoop re nmatch src repl fuel lastMatchEnd searchPos buf =
  replaceAllLoop re nmatch src repl fuel' lastMatchEnd searchPos buf.
Proof.
  revert fuel' lastMatchEnd searchPos buf.
  induction fuel as [|fuel IH]; intros fuel' last pos buf Hn H1 H2.
  - destruct fuel' as [|fuel']; [done|]. cbn [replaceAllLoop].
    by rewrite decide_False by lia.
  - destruct fuel' as [|fuel'].
    { cbn [replaceAllLoop]. by rewrite decide_False by lia. }
    cbn [replaceAllLoop]. case_decide as Hpos; [|done].
    destruct (doExecute re src pos) as [a|] eqn:E; [|done].
    apply doExecute_bounds in E as (a0 & a1 & H0 & ? & ? & ?).
    rewrite (whole_take nmatch a a0 a1) by done.
    apply IH; [done | |];
      destruct (decide (pos < length src));
      destruct (decide (a1 < pos + 1)); repeat case_decide; lia.
Qed.

(** ** One record to one destination *)

Lemma forward_ok (p : Packet) (i : nat) (d : Destination)
    (destConns : list Conn) (conn : Conn) (w : World) :
  destConns !! i = Some conn -> ~ writeFails w ->
  forward p i d destConns w =
    ([EvWrite conn (packetFor d p) true], set_writes tail w, Ret destConns).
Proof.
  intros Hc Hw. unfold forward, bind, Write, writeFails in *. rewrite Hc.
  by destruct (writes w) as [|[] ?].
Qed.

Lemma forward_reconnect (p : Packet) (i : nat) (d : Destination)
    (destConns : list Conn) (conn : Conn) (w : World) :
  destConns !! i = Some conn -> writeFails w ->
  ~ dialFails w ->
  let conn' := mkConn (nextConn w) (Address d) in
  forward p i d destConns w =
    ([EvWrite conn (packetFor d p) false;
      EvLog "ERROR: writing to UDP socket - %s";
      EvClose conn;
      EvDial (Address d) Second (Some conn')],
     set_nextConn S (set_dials tail (set_writes tail w)),
     Ret (<[i := conn']> destConns)).
Proof.
  intros Hc Hw Hd. unfold forward, bind, Write, writeFails, dialFails in *.
  rewrite Hc. destruct (writes w) as [|[] ?] eqn:Ew; try done.
  cbn. unfold DialTimeout. cbn.
  by destruct (dials w) as [|[] ?].
Qed.

Lemma forward_fatal (p : Packet) (i : nat) (d : Destination)
    (destConns : list Conn) (conn : Conn) (w : World) :
  destConns !! i = Some conn -> writeFails w -> dialFails w ->
  forward p i d destConns w =
    ([EvWrite conn (packetFor d p) false;
      EvLog "ERROR: writing to UDP socket - %s";
      EvClose conn;
      EvDial (Address d) Second None;
      EvFatal "ERROR: UDP connection failed - %s"],
     set_dials tail (set_writes tail w),
     Exit 1).
Proof.
  intros Hc Hw Hd. unfold forward, bind, Write, writeFails, dialFails in *.
  rewrite Hc. destruct (writes w) as [|[] ?] eqn:Ew; try done.
  cbn. unfold DialTimeout. cbn.
  by destruct (dials w) as [|[] ?].
Qed.

(** ** Running one piece after another *)

Lemma bind_Ret {A B} (m : M A) (f : A -> M B) (w w1 : World)
    (e1 : list Event) (a : A) :
  m w = (e1, w1, Ret a) ->
  bind m f w = (e1 ++ events (f a w1), world (f a w1), outcome (f a w1)).
Proof.
  intros H. unfold bind. rewrite H. by destruct (f a w1) as [[e2 w2] o2].
Qed.

Lemma bind_Exit {A B} (m : M A) (f : A -> M B) (w w1 : World)
    (e1 : list Event) (status : nat) :
  m w = (e1, w1, Exit status) -> bind m f w = (e1, w1, Exit status).
Proof. intros H. unfold bind. by rewrite H. Qed.

Lemma bind_Panic {A B} (m : M A) (f : A -> M B) (w w1 : World)
    (e1 : list Event) :
  m w = (e1, w1, Panic) -> bind m f w = (e1, w1, Panic).
Proof. intros H. unfold bind. by rewrite H. Qed.

Lemma emit_bind {B} (e : Event) (f : M B) (w : World) :
  bind (emit e) (fun _ => f) w
  = ([e] ++ events (f w), world (f w), outcome (f w)).
Proof. by apply (bind_Ret (emit e) (fun _ => f) w w [e] tt). Qed.

Lemma written_app (e1 e2 : list Event) :
  written (e1 ++ e2) = written e1 ++ written e2.
Proof. apply omap_app. Qed.

Lemma sent_app (e1 e2 : list Event) : sent (e1 ++ e2) = sent e1 ++ sent e2.
Proof. unfold sent. by rewrite written_app, fmap_app. Qed.

Lemma dialed_app (e1 e2 : list Event) :
  dialed (e1 ++ e2) = dialed e1 ++ dialed e2.
Proof. apply omap_app. Qed.

(** ** The sockets stay with their destinations *)

Lemma linked_lookup (done rest : list Destination) (d : Destination)
    (destConns : list Conn) :
  linked (done ++ d :: rest) destConns ->
  exists conn, destConns !! length done = Some conn
               /\ RemoteAddr conn = Address d.
Proof.
  intros H. unfold linked in H.
  apply Forall2_app_inv_l in H as (c1 & c2 & H1 & H2 & ->).
  inversion H2 as [|? conn ? c2' Hc ?]; subst.
  exists conn. split; [|done].
  rewrite (Forall2_length _ _ _ H1). by rewrite list_lookup_middle.
Qed.

Lemma linked_insert (done rest : list Destination) (d : Destination)
    (destConns : list Conn) (conn' : Conn) :
  linked (done ++ d :: rest) destConns ->
  RemoteAddr conn' = Address d ->
  linked (done ++ d :: rest) (<[length done := conn']> destConns).
Proof.
  intros H Hc. unfold linked in *.
  apply Forall2_app_inv_l in H as (c1 & c2 & H1 & H2 & ->).
  inversion H2 as [|? conn ? c2' ? ?]; subst.
  rewrite (Forall2_length _ _ _ H1).
  rewrite insert_app_r_alt, Nat.sub_diag by lia. cbn.
  apply Forall2_app; [done|]. by constructor.
Qed.

(** What one round of the innermost loop does, whatever the network
    does: one write on socket [i], of the packet for the destination; and
    then the sockets as they were, or with a new socket [i] toward the same
    address, or the process has exited with status 1. *)
Lemma forward_summary (p : Packet) (i : nat) (d : Destination)
    (destConns : list Conn) (conn : Conn) (w : World) :
  destConns !! i = Some conn ->
  (exists ok, written (events (forward p i d destConns w))
              = [(conn, packetFor d p, ok)])
  /\ match outcome (forward p i d destConns w) with
     | Ret destConns' =>
         destConns' = destConns
         \/ exists conn', RemoteAddr conn' = Address d
                          /\ destConns' = <[i := conn']> destConns
     | Exit status => status = 1
     | Panic => False
     end.
Proof.
  intros Hc. destruct (decide (writeFails w)) as [Hw|Hw].
  - destruct (decide (dialFails w)) as [Hd|Hd].
    + rewrite (forward_fatal _ _ _ _ _ _ Hc Hw Hd). cbn. eauto.
    + rewrite (forward_reconnect _ _ _ _ _ _ Hc Hw Hd). cbn.
      split; [eauto|]. right.
      by exists (mkConn (nextConn w) (Address d)).
  - rewrite (forward_ok _ _ _ _ _ _ Hc Hw). cbn. eauto.
Qed.

(** ** The loops of the router *)

Ltac proj := cbn [events world outcome fst snd] in *.

Lemma sendsAll_bind (m : M (list Conn)) (f : list Conn -> M (list Conn))
    (w : World) (exp1 exp2 : list (bytes * bytes))
    (ds : list Destination) (hp1 hp2 : list bytes -> Prop) :
  sendsAll exp1 ds hp1 (m w) ->
  (forall destConns' w', linked ds destConns' -> hp1 (heap w') ->
     sendsAll exp2 ds hp2 (f destConns' w')) ->
  sendsAll (exp1 ++ exp2) ds hp2 (bind m f w).
Proof.
  unfold sendsAll at 1. intros Hm Hf.
  destruct (m w) as [[e1 w1] [conns1|st|]] eqn:E; proj; [| |done].
  - destruct Hm as (Hh & Hl & Hs). rewrite (bind_Ret _ _ _ _ _ _ E).
    specialize (Hf conns1 w1 Hl Hh). unfold sendsAll in *. proj.
    destruct (outcome (f conns1 w1)) as [conns2|st|]; [| |done].
    + destruct Hf as (Hh2 & Hl2 & Hs2). split; [done|]. split; [done|].
      by rewrite sent_app, Hs, Hs2.
    + destruct Hf as [-> Hp]. split; [done|].
      rewrite sent_app, Hs. by apply prefix_app.
  - destruct Hm as [-> Hp]. rewrite (bind_Exit _ _ _ _ _ _ E).
    unfold sendsAll. proj. split; [done|]. by apply prefix_app_r.
Qed.

Lemma forward_heap (p : Packet) (i : nat) (d : Destination)
    (destConns : list Conn) (w : World) :
  heap (world (forward p i d destConns w)) = heap w.
Proof.
  destruct (destConns !! i) as [conn|] eqn:Hc.
  - destruct (decide (writeFails w)) as [Hw|Hw];
      [destruct (decide (dialFails w)) as [Hd|Hd]|].
    + by rewrite (forward_fatal _ _ _ _ _ _ Hc Hw Hd).
    + by rewrite (forward_reconnect _ _ _ _ _ _ Hc Hw Hd).
    + by rewrite (forward_ok _ _ _ _ _ _ Hc Hw).
  - unfold forward. by rewrite Hc.
Qed.

Lemma forward_sendsAll (p : Packet) (done rest : list Destination)
    (d : Destination) (destConns : list Conn) (w : World) :
  linked (done ++ d :: rest) destConns ->
  sendsAll [(Address d, packetFor d p)] (done ++ d :: rest) (eq (heap w))
    (forward p (length done) d destConns w).
Proof.
  intros Hl. destruct (linked_lookup done rest d _ Hl)
    as (conn & Hc & Haddr).
  destruct (forward_summary p (length done) d destConns conn w Hc)
    as [[ok Hwr] Ho].
  assert (sent (events (forward p (length done) d destConns w))
          = [(Address d, packetFor d p)]) as Hs.
  { unfold sent. rewrite Hwr. cbn. by rewrite Haddr. }
  pose proof (forward_heap p (length done) d destConns w) as Hh.
  unfold sendsAll. destruct (outcome _) as [conns'|st|]; [| |done].
  - split; [done|]. split; [|done].
    destruct Ho as [->|(conn' & Hc' & ->)]; [done|].
    by apply linked_insert.
  - split; [done|]. by rewrite Hs.
Qed.

Lemma ret_sendsAll (ds : list Destination) (destConns : list Conn)
    (w : World) :
  linked ds destConns -> sendsAll [] ds (eq (heap w)) (ret destConns w).
Proof. intros Hl. by repeat split. Qed.

Lemma forDestinations_sendsAll (p : Packet) (done rest : list Destination)
    (destConns : list Conn) (w : World) :
  linked (done ++ rest) destConns ->
  sendsAll ((fun d => (Address d, packetFor d p)) <$> rest) (done ++ rest)
    (eq (heap w)) (forDestinations p (length done) rest destConns w).
Proof.
  revert done destConns w. induction rest as [|d rest IH];
    intros done destConns w Hl; cbn [forDestinations fmap list_fmap].
  - by apply ret_sendsAll.
  - apply (sendsAll_bind _ _ _ [_] _ _ (eq (heap w)));
      [by apply forward_sendsAll|].
    intros conns' w' Hl' ->.
    specialize (IH (done ++ [d]) conns' w').
    rewrite length_app, Nat.add_1_r, <- app_assoc in IH. by apply IH.
Qed.

Lemma forPackets_sendsAll (ds : list Destination) (ps : list Packet)
    (destConns : list Conn) (w : World) :
  linked ds destConns ->
  sendsAll (fanout ds ps) ds (eq (heap w)) (forPackets ds ps destConns w).
Proof.
  revert destConns w. induction ps as [|p ps IH]; intros destConns w Hl;
    cbn [forPackets].
  - by apply ret_sendsAll.
  - unfold fanout. cbn [mbind list_bind].
    apply (sendsAll_bind _ _ _ _ _ _ (eq (heap w))).
    + by apply (forDestinations_sendsAll p []).
    + intros conns' w' Hl' ->. by apply IH.
Qed.

Lemma dialAll_sendsAll (done rest : list Destination)
    (destConns : list Conn) (w : World) :
  linked done destConns ->
  sendsAll [] (done ++ rest) (eq (heap w)) (dialAll rest destConns w).
Proof.
  revert done destConns w. induction rest as [|d rest IH];
    intros done destConns w Hl; cbn [dialAll].
  - rewrite app_nil_r. by apply ret_sendsAll.
  - assert (linked (done ++ [d])
              (destConns ++ [mkConn (nextConn w) (Address d)])) as Hl'.
    { apply Forall2_app; [done|]. by repeat constructor. }
    specialize (IH (done ++ [d]) _ (set_nextConn S (set_dials tail w)) Hl').
    rewrite <- app_assoc in IH. unfold sendsAll in *.
    unfold bind, DialTimeout. destruct (dials w) as [|[] ?] eqn:Ed.
    + destruct (dialAll rest _ _) as [[e2 w2] o2]. done.
    + destruct (dialAll rest _ _) as [[e2 w2] o2]. done.
    + proj. split; [done|]. apply prefix_nil.
Qed.

Lemma load_bind {A} (data : Slice) (f : bytes -> M A) (w : World) :
  bind (load data) f w = f (view (heap w) data) w.
Proof. unfold bind, load. by destruct (f _ w) as [[e2 w2] o2]. Qed.



(** ** Reading into an array *)

Lemma ReadFromUDP_Some (d : bytes) (message : nat) (w : World) :
  bufferAt message (heap w) ->
  let n := Nat.min (length d) 512 in
  exists w', ReadFromUDP (Some d) message w
             = ([EvRead message (Some n)], w', Ret (Some n))
             /\ bufferAt message (heap w')
             /\ view (heap w') (mkSlice message n) = take 512 d
             /\ (forall other, other <> message ->
                   heap w' !! other = heap w !! other)
             /\ length (heap w') = length (heap w)
             /\ dataCh w' = dataCh w.
Proof.
  intros (arr & Harr & Hlen) n. unfold ReadFromUDP. rewrite Harr.
  change (default [] (Some arr)) with arr. rewrite Hlen. fold n. eexists. split; [done|].
  assert (message < length (heap w)) as Hlt by by eapply lookup_lt_Some.
  cbn [heap set_heap]. repeat split.
  - exists (take n d ++ drop n arr). rewrite list_lookup_insert_eq by done.
    split; [done|]. rewrite length_app, length_take, length_drop. lia.
  - unfold view. cbn [array len]. rewrite list_lookup_insert_eq by done.
    change (default [] (Some ?x)) with x. rewrite take_app_le by (rewrite length_take; lia).
    rewrite take_take, Nat.min_id.
    unfold n. destruct (decide (length d <= 512)).
    + rewrite Nat.min_l by done. by rewrite !take_ge by lia.
    + rewrite Nat.min_r by lia. done.
  - intros other Hne. by rewrite list_lookup_insert_ne.
  - by rewrite length_insert.
Qed.

(** ** The loop of version 0.1 *)

Lemma sendsAll_after (pre : list Event) (exp : list (bytes * bytes))
    (ds : list Destination) (hp : list bytes -> Prop)
    (r : list Event * World * Outcome (list Conn)) :
  sent pre = [] -> sendsAll exp ds hp r ->
  sendsAll exp ds hp (pre ++ events r, world r, outcome r).
Proof.
  intros Hpre H. unfold sendsAll in *. proj.
  rewrite sent_app, Hpre. done.
Qed.

Lemma sendsAll_weaken (exp : list (bytes * bytes)) (ds : list Destination)
    (hp hp' : list bytes -> Prop)
    (r : list Event * World * Outcome (list Conn)) :
  (forall h, hp h -> hp' h) -> sendsAll exp ds hp r -> sendsAll exp ds hp' r.
Proof.
  intros Himp H. unfold sendsAll in *.
  destruct (outcome r); [|done..]. destruct H as (? & ? & ?). auto.
Qed.

Lemma udpListenerTurn_v01_sendsAll (ds : list Destination) (message : nat)
    (incoming : option bytes) (destConns : list Conn) (w : World) :
  linked ds destConns -> bufferAt message (heap w) ->
  sendsAll (routed ds [incoming]) ds (bufferAt message)
    (udpListenerTurn_v01 ds message incoming destConns w).
Proof.
  intros Hl Hb. unfold routed. cbn [mbind list_bind]. rewrite app_nil_r.
  unfold udpListenerTurn_v01. destruct incoming as [d|].
  - destruct (ReadFromUDP_Some d message w Hb)
      as (w' & Hr & Hb' & Hv & _).
    rewrite (bind_Ret _ _ _ _ _ _ Hr).
    unfold log_Printf. rewrite emit_bind, load_bind, Hv. proj.
    apply (sendsAll_after [_; _]); [done|].
    eapply sendsAll_weaken; [|by apply forPackets_sendsAll].
    by intros h <-.
  - cbn. unfold sendsAll. proj. by repeat split.
Qed.

Lemma udpListenerLoop_v01_sendsAll (ds : list Destination) (message : nat)
    (incomings : list (option bytes)) (destConns : list Conn) (w : World) :
  linked ds destConns -> bufferAt message (heap w) ->
  sendsAll (routed ds incomings) ds (bufferAt message)
    (udpListenerLoop_v01 ds message incomings destConns w).
Proof.
  revert destConns w. induction incomings as [|incoming incomings IH];
    intros destConns w Hl Hb; cbn [udpListenerLoop_v01].
  - unfold sendsAll. by repeat split.
  - replace (routed ds (incoming :: incomings))
      with (routed ds [incoming] ++ routed ds incomings)
      by (unfold routed; cbn [mbind list_bind]; by rewrite app_nil_r).
    eapply sendsAll_bind.
    + by apply udpListenerTurn_v01_sendsAll.
    + intros conns' w' Hl' Hb'. by apply IH.
Qed.


(** ** The order and the form of what is sent *)

Lemma sendsAll_outcome (exp : list (bytes * bytes)) (ds : list Destination)
    (hp : list bytes -> Prop)
    (r : list Event * World * Outcome (list Conn)) :
  sendsAll exp ds hp r ->
  match outcome r with
  | Ret _ => sent (events r) = exp
  | Exit status => status = 1 /\ sent (events r) `prefix_of` exp
  | Panic => False
  end.
Proof.
  unfold sendsAll. destruct (outcome r); [|done..]. by intros (_ & _ & ?).
Qed.




Lemma fanout_length (ds : list Destination) (ps : list Packet) :
  length (fanout ds ps) = length ps * length ds.
Proof.
  unfold fanout. induction ps as [|p ps IH]; cbn [mbind list_bind length];
    [done|].
  rewrite length_app, length_fmap, IH. cbn. lia.
Qed.





(** C6.  When the write of a packet fails, the router logs the error,
    closes the socket and dials once, toward the address of the same
    destination and with a timeout of one second; it does not write the
    packet again.  If the dial fails, the process logs that and exits with
    status 1.  If it succeeds, the new socket takes the place of the old
    one at index [i], the other sockets stay, and the next packet for that
    destination is written on the new socket. *)
Theorem reconnect_on_write_failure (p : Packet) (i : nat) (d : Destination)
    (destConns : list Conn) (conn : Conn) (w : World) :
  destConns !! i = Some conn -> writeFails w ->
  let r := forward p i d destConns w in
  written (events r) = [(conn, packetFor d p, false)]
  /\ dialed (events r) = [(Address d, Second)]
  /\ exists res rest,
       events r = [EvWrite conn (packetFor d p) false;
                   EvLog "ERROR: writing to UDP socket - %s";
                   EvClose conn;
                   EvDial (Address d) Second res] ++ rest
       /\ match res with
          | None =>
              dialFails w
              /\ rest = [EvFatal "ERROR: UDP connection failed - %s"]
              /\ outcome r = Exit 1
          | Some conn' =>
              ~ dialFails w /\ rest = []
              /\ outcome r = Ret (<[i := conn']> destConns)
              /\ RemoteAddr conn' = Address d
              /\ (<[i := conn']> destConns) !! i = Some conn'
              /\ (forall j, j <> i ->
                    (<[i := conn']> destConns) !! j = destConns !! j)
              /\ (forall p' w', exists ok,
                    written
                      (events (forward p' i d (<[i := conn']> destConns) w'))
                    = [(conn', packetFor d p', ok)])
          end.
Proof.
  intros Hc Hw r. subst r.
  assert (i < length destConns) as Hi by by eapply lookup_lt_Some.
  destruct (decide (dialFails w)) as [Hd|Hd].
  - rewrite (forward_fatal _ _ _ _ _ _ Hc Hw Hd). proj.
    split; [done|]. split; [done|].
    by exists None, [EvFatal "ERROR: UDP connection failed - %s"].
  - rewrite (forward_reconnect _ _ _ _ _ _ Hc Hw Hd). proj.
    split; [done|]. split; [done|].
    exists (Some (mkConn (nextConn w) (Address d))), [].
    split; [done|]. repeat split; [done|..].
    + by apply list_lookup_insert_eq.
    + intros j Hj. by apply list_lookup_insert_ne.
    + intros p' w'.
      destruct (forward_summary p' i d
                  (<[i := mkConn (nextConn w) (Address d)]> destConns)
                  (mkConn (nextConn w) (Address d)) w') as [H _]; [|done].
      by apply list_lookup_insert_eq.
Qed.

Lemma reconnect_on_write_failure_witness :
  sampleConns !! 0 = Some (mkConn 0 (B "127.0.0.1:9001"))
  /\ writeFails flaky
  /\ events (forward samplePacket 0 prodDest sampleConns flaky)
     = [EvWrite (mkConn 0 (B "127.0.0.1:9001"))
          (B "prod.stats.counter:5|c") false;
        EvLog "ERROR: writing to UDP socket - %s";
        EvClose (mkConn 0 (B "127.0.0.1:9001"));
        EvDial (B "127.0.0.1:9001") Second
          (Some (mkConn 2 (B "127.0.0.1:9001")))]
  /\ dialed (events (forward samplePacket 0 prodDest sampleConns flaky))
     = [(B "127.0.0.1:9001", Second)].
Proof.
  assert (sampleConns !! 0 = Some (mkConn 0 (B "127.0.0.1:9001"))) as H1
    by reflexivity.
  assert (writeFails flaky) as H2 by reflexivity.
  split; [exact H1|]. split; [exact H2|]. split; [vm_compute; reflexivity|].
  exact (proj1 (proj2 (reconnect_on_write_failure samplePacket 0 prodDest
                         sampleConns _ flaky H1 H2))).
Defined.



(** ** The listener and its arrays *)

Lemma readArrays_app (e1 e2 : list Event) :
  readArrays (e1 ++ e2) = readArrays e1 ++ readArrays e2.
Proof. apply omap_app. Qed.

(** One turn of the loop of version 0.3.1. *)
Lemma udpListenerTurn_run (incoming : option bytes) (w : World) :
  let message := length (heap w) in
  udpListenerTurn incoming w =
    match incoming with
    | Some d =>
        let n := Nat.min (length d) 512 in
        ([EvMake message 512; EvRead message (Some n);
          EvLog "msg: %s (%d)"; EvSend (mkSlice message n)],
         set_dataCh (fun q => q ++ [mkSlice message n])
           (set_heap (fun h => h ++ [take n d ++ replicate (512 - n) x00]) w),
         Ret tt)
    | None =>
        ([EvMake message 512; EvRead message None;
          EvLog "ERROR: reading UDP packet from %+v - %s"],
         set_heap (fun h => h ++ [replicate 512 x00]) w, Ret tt)
    end.
Proof.
  intros message. unfold udpListenerTurn.
  rewrite (bind_Ret (make 512) _ w
             (set_heap (fun h => h ++ [replicate 512 x00]) w)
             [EvMake message 512] message) by done.
  destruct incoming as [d|]; [|done].
  unfold bind, ReadFromUDP, log_Printf, emit, chanSend. proj.
  cbn [heap set_heap]. fold message.
  rewrite lookup_app_r, Nat.sub_diag by (unfold message; lia).
  change (default [] ([replicate 512 x00] !! 0)) with (replicate 512 x00).
  rewrite length_replicate, drop_replicate. cbn [app].
  f_equal. f_equal. unfold set_dataCh, set_heap. cbn. f_equal.
  unfold message. rewrite insert_app_r_alt, Nat.sub_diag by lia. done.
Qed.

Lemma take_min_512 (d : bytes) : take (Nat.min (length d) 512) d = take 512 d.
Proof.
  destruct (decide (length d <= 512)).
  - rewrite Nat.min_l by done. by rewrite !take_ge by lia.
  - by rewrite Nat.min_r by lia.
Qed.

Lemma view_grow (h : list bytes) (arr : bytes) (data : Slice) :
  array data < length h -> view (h ++ [arr]) data = view h data.
Proof. intros H. unfold view. by rewrite lookup_app_l. Qed.

Lemma view_new (h : list bytes) (d : bytes) (pad : bytes) :
  view (h ++ [take (Nat.min (length d) 512) d ++ pad])
    (mkSlice (length h) (Nat.min (length d) 512))
  = take 512 d.
Proof.
  unfold view. cbn [array len].
  rewrite lookup_app_r, Nat.sub_diag by lia.
  change (default [] ([?x] !! 0)) with x.
  rewrite take_app_le by (rewrite length_take; lia).
  rewrite take_take, Nat.min_id. apply take_min_512.
Qed.

Lemma udpListenerTurn_views (incoming : option bytes) (w : World) :
  queueInHeap w ->
  let r := udpListenerTurn incoming w in
  outcome r = Ret tt
  /\ readArrays (events r) = [length (heap w)]
  /\ length (heap (world r)) = S (length (heap w))
  /\ queueInHeap (world r)
  /\ view (heap (world r)) <$> dataCh (world r)
     = (view (heap w) <$> dataCh w) ++ omap (fmap (take 512)) [incoming].
Proof.
  intros Hq r. subst r. rewrite udpListenerTurn_run.
  assert (forall arr, view (heap w ++ [arr]) <$> dataCh w
                      = view (heap w) <$> dataCh w) as Hold.
  { intros arr. apply Forall_fmap_ext_1. eapply Forall_impl; [exact Hq|].
    intros data Hd. by apply view_grow. }
  destruct incoming as [d|]; proj; cbn [heap dataCh set_heap set_dataCh].
  - split; [done|]. split; [done|]. split; [rewrite length_app; cbn; lia|].
    split.
    + unfold queueInHeap. cbn [heap dataCh set_heap set_dataCh].
      rewrite length_app. apply Forall_app. split.
      * eapply Forall_impl; [exact Hq|]. cbn. intros; lia.
      * repeat constructor. cbn. lia.
    + rewrite fmap_app, Hold. cbn [fmap list_fmap omap option_fmap option_map].
      by rewrite view_new.
  - split; [done|]. split; [done|]. split; [rewrite length_app; cbn; lia|].
    split.
    + unfold queueInHeap. cbn [heap dataCh set_heap set_dataCh].
      rewrite length_app. eapply Forall_impl; [exact Hq|]. cbn. intros; lia.
    + rewrite Hold. cbn. by rewrite app_nil_r.
Qed.

Lemma udpListenerLoop_views (incomings : list (option bytes)) (w : World) :
  queueInHeap w ->
  let r := udpListenerLoop incomings w in
  outcome r = Ret tt
  /\ readArrays (events r) = seq (length (heap w)) (length incomings)
  /\ queueInHeap (world r)
  /\ view (heap (world r)) <$> dataCh (world r)
     = (view (heap w) <$> dataCh w) ++ omap (fmap (take 512)) incomings.
Proof.
  revert w. induction incomings as [|incoming incomings IH]; intros w Hq.
  - cbn. by rewrite app_nil_r.
  - cbn zeta. cbn [udpListenerLoop].
    destruct (udpListenerTurn_views incoming w Hq)
      as (Ho & Hr & Hlen & Hq' & Hv).
    destruct (udpListenerTurn incoming w) as [[e1 w1] o1] eqn:E. proj.
    subst o1. rewrite (bind_Ret _ _ _ _ _ _ E). proj.
    destruct (IH w1 Hq') as (Ho2 & Hr2 & Hq2 & Hv2).
    split; [done|]. split; [|split; [done|]].
    + rewrite readArrays_app, Hr, Hr2, Hlen. done.
    + rewrite Hv2, Hv, <- app_assoc. f_equal.
      change (incoming :: incomings) with ([incoming] ++ incomings).
      by rewrite omap_app.
Qed.

Lemma bind_events {A B} (m : M A) (f : A -> M B) (w : World) :
  events (bind m f w)
  = events (m w) ++ match outcome (m w) with
                    | Ret a => events (f a (world (m w)))
                    | _ => []
                    end.
Proof.
  unfold bind. destruct (m w) as [[e1 w1] [a|st|]]; proj.
  - by destruct (f a w1) as [[e2 w2] o2].
  - by rewrite app_nil_r.
  - by rewrite app_nil_r.
Qed.

Lemma forward_no_reads (p : Packet) (i : nat) (d : Destination)
    (destConns : list Conn) (w : World) :
  readArrays (events (forward p i d destConns w)) = [].
Proof.
  destruct (destConns !! i) as [conn|] eqn:Hc.
  - destruct (decide (writeFails w)) as [Hw|Hw];
      [destruct (decide (dialFails w)) as [Hd|Hd]|].
    + by rewrite (forward_fatal _ _ _ _ _ _ Hc Hw Hd).
    + by rewrite (forward_reconnect _ _ _ _ _ _ Hc Hw Hd).
    + by rewrite (forward_ok _ _ _ _ _ _ Hc Hw).
  - unfold forward. by rewrite Hc.
Qed.

Lemma forDestinations_no_reads (p : Packet) (i : nat)
    (rest : list Destination) (destConns : list Conn) (w : World) :
  readArrays (events (forDestinations p i rest destConns w)) = [].
Proof.
  revert i destConns w. induction rest as [|d rest IH];
    intros i destConns w; cbn [forDestinations]; [done|].
  rewrite bind_events, readArrays_app, forward_no_reads.
  destruct (outcome _); [apply IH | done..].
Qed.

Lemma forPackets_no_reads (ds : list Destination) (ps : list Packet)
    (destConns : list Conn) (w : World) :
  readArrays (events (forPackets ds ps destConns w)) = [].
Proof.
  revert destConns w. induction ps as [|p ps IH]; intros destConns w;
    cbn [forPackets]; [done|].
  rewrite bind_events, readArrays_app, forDestinations_no_reads.
  destruct (outcome _); [apply IH | done..].
Qed.

Lemma udpListenerTurn_v01_reads (ds : list Destination) (message : nat)
    (incoming : option bytes) (destConns : list Conn) (w : World) :
  readArrays (events (udpListenerTurn_v01 ds message incoming destConns w))
  = [message].
Proof.
  unfold udpListenerTurn_v01. rewrite bind_events, readArrays_app.
  destruct incoming as [d|]; [|done].
  unfold ReadFromUDP at 1 2 3. proj. unfold log_Printf.
  rewrite emit_bind, load_bind. proj.
  rewrite readArrays_app, forPackets_no_reads. done.
Qed.

Lemma udpListenerLoop_v01_reads (ds : list Destination) (message : nat)
    (incomings : list (option bytes)) (destConns : list Conn) (w : World) :
  Forall (eq message)
    (readArrays (events (udpListenerLoop_v01 ds message incomings
                           destConns w))).
Proof.
  revert destConns w. induction incomings as [|incoming incomings IH];
    intros destConns w; cbn [udpListenerLoop_v01]; [constructor|].
  rewrite bind_events, readArrays_app, udpListenerTurn_v01_reads.
  cbn [app]. constructor; [done|]. destruct (outcome _); [apply IH|done..].
Qed.

(** C8, as the two versions have it.  Version 0.3.1 makes a new array of
    512 bytes in every turn of its loop and reads into it, so that no
    array is read into twice; the slices in the channel keep showing what
    they showed, and each datagram adds a slice that shows its bytes, cut
    to 512.  Version 0.1 reads every datagram into the one array made
    before the loop, and routes the bytes received, cut to 512, before it
    reads again. *)
Theorem listener_buffers :
  (forall incomings w,
     queueInHeap w ->
     let r := udpListenerLoop incomings w in
     freshBufferPerRead (events r)
     /\ readArrays (events r) = seq (length (heap w)) (length incomings)
     /\ view (heap (world r)) <$> dataCh (world r)
        = (view (heap w) <$> dataCh w) ++ omap (fmap (take 512)) incomings)
  /\ (forall ds message incomings destConns w,
        linked ds destConns -> bufferAt message (heap w) ->
        let r := udpListenerLoop_v01 ds message incomings destConns w in
        Forall (eq message) (readArrays (events r))
        /\ match outcome r with
           | Ret _ => sent (events r) = routed ds incomings
           | Exit status =>
               status = 1 /\ sent (events r) `prefix_of` routed ds incomings
           | Panic => False
           end)
  /\ (forall d : bytes, length (take 512 d) = Nat.min (length d) 512).
Proof.
  split; [|split].
  - intros incomings w Hq r.
    destruct (udpListenerLoop_views incomings w Hq) as (_ & Hr & _ & Hv).
    fold r in Hr, Hv. split; [|done].
    unfold freshBufferPerRead. rewrite Hr. apply NoDup_seq.
  - intros ds message incomings destConns w Hl Hb r. split.
    + apply udpListenerLoop_v01_reads.
    + eapply sendsAll_outcome. by apply udpListenerLoop_v01_sendsAll.
  - intros d. rewrite length_take. lia.
Qed.

Lemma listener_buffers_witness :
  queueInHeap quiet
  /\ freshBufferPerRead (events (udpListenerLoop sampleIncomings quiet))
  /\ view (heap (world (udpListenerLoop sampleIncomings quiet)))
       <$> dataCh (world (udpListenerLoop sampleIncomings quiet))
     = [sampleData; replicate 512 x41].
Proof.
  assert (queueInHeap quiet) as H by constructor.
  split; [exact H|].
  destruct (proj1 listener_buffers sampleIncomings quiet H) as (H1 & _ & H3).
  split; [exact H1|]. etransitivity; [exact H3|]. vm_compute. reflexivity.
Defined.

(** Version 0.1 reads two datagrams into the same array: the claim that
    no array is used for two reads does not hold of it. *)
Lemma v01_reuses_buffer :
  ~ freshBufferPerRead
      (events (udpListener_v01 (B ":8125") sampleDests
                 [Some sampleData; Some sampleData] quiet)).
Proof.
  unfold freshBufferPerRead.
  replace (readArrays _) with [0; 0] by (vm_compute; reflexivity).
  intros H. apply NoDup_cons in H as [Hin _]. apply Hin, list_elem_of_here.
Qed.

(** ** Start-up *)

Section Startup.

Variable MustCompile : bytes -> option Regexp.



End Startup.



(** ** The program at work *)

(** The scenario of the specification: two destinations that put
    [prod.] and [dev.] before a key that starts with [stats.]; version 0.1
    reads the datagram and sends one packet to each. *)
Example tee_v01 :
  sent (events (udpListener_v01 (B ":8125") sampleDests [Some sampleData]
                  quiet))
  = [(B "127.0.0.1:9001", B "prod.stats.counter:5|c");
     (B "127.0.0.1:9002", B "dev.stats.counter:5|c")].
Proof. vm_compute. reflexivity. Qed.

(** The same with version 0.3.1: the listener puts the slice in the
    channel, and [processData] takes it from there. *)
Example tee_v031 :
  let listened := udpListener (B ":8125") [Some sampleData] quiet in
  sent (events (processData (dataCh (world listened)) sampleDests
                  (world listened)))
  = [(B "127.0.0.1:9001", B "prod.stats.counter:5|c");
     (B "127.0.0.1:9002", B "dev.stats.counter:5|c")].
Proof. vm_compute. reflexivity. Qed.

(** When the write fails and the dial after it fails too, the process
    ends there: nothing goes to the second destination. *)
Example fatal_stops_fanout :
  forDestinations samplePacket 0 sampleDests sampleConns broken
  = ([EvWrite (mkConn 0 (B "127.0.0.1:9001")) (B "prod.stats.counter:5|c")
        false;
      EvLog "ERROR: writing to UDP socket - %s";
      EvClose (mkConn 0 (B "127.0.0.1:9001"));
      EvDial (B "127.0.0.1:9001") Second None;
      EvFatal "ERROR: UDP connection failed - %s"],
     mkWorld true true [] [] 2 [] [], Exit 1).
Proof. vm_compute. reflexivity. Qed.

(** Groups, by number and by name, in the template. *)
Example ReplaceAll_groups :
  ReplaceAll
    (OpConcat (OpCapture 1 (B "app") (OpPlus (OpCharClass true [x2e])))
       (OpConcat (OpLiteral x2e)
          (OpCapture 2 [] (OpPlus (OpCharClass true [x2e])))))
    (B "web.hits.total") (B "${2}_$1/$app$$")
  = B "hits_web/web$.total".
Proof. vm_compute. reflexivity. Qed.

(** A pattern that matches the empty text: no second replacement right
    after a match. *)
Example ReplaceAll_empty_matches :
  ReplaceAll (OpStar (OpLiteral x61)) (B "baaac") (B "X") = B "XbXcX".
Proof. vm_compute. reflexivity. Qed.

(** The lines of a datagram: one without a colon, one that starts with a
    colon and an empty one are dropped, the others are split at their
    first colon. *)
Example parseMessage_mixed :
  parseMessage (Join [B "stats.counter:5|c"; B "junk"; B ":x"; [];
                      B "a:b:c"; B "k:"] NL)
  = [mkPacket (B "stats.counter") (B "5|c");
     mkPacket (B "a") (B "b:c"); mkPacket (B "k") []].
Proof. vm_compute. reflexivity. Qed.

(** * Further properties of the code *)

(** ** The parser *)

Lemma Split_app (a b : bytes) (sep : byte) :
  Split (a ++ sep :: b) sep = Split a sep ++ Split b sep.
Proof.
  induction a as [|c a IH]; cbn [Split app].
  - by rewrite decide_True.
  - case_decide; [by rewrite IH|].
    rewrite IH. pose proof (Split_nonempty sep a).
    by destruct (Split a sep).
Qed.

(** X1.  Two buffers with a newline between them parse to the records of
    the first followed by those of the second; a newline at the end or at
    the start of a buffer changes nothing. *)
Theorem parseMessage_app (a b : bytes) :
  parseMessage (a ++ NL :: b) = parseMessage a ++ parseMessage b
  /\ parseMessage (a ++ [NL]) = parseMessage a
  /\ parseMessage (NL :: b) = parseMessage b.
Proof.
  assert (forall x y, parseMessage (x ++ NL :: y)
                      = parseMessage x ++ parseMessage y) as H.
  { intros x y. rewrite !parseMessage_concat, Split_app, fmap_app.
    apply concat_app. }
  split; [apply H|]. split.
  - rewrite H. apply app_nil_r.
  - apply (H [] b).
Qed.

Lemma drop_past (l r : bytes) (x : byte) :
  drop (S (length l)) (l ++ x :: r) = r.
Proof. induction l as [|c l IH]; [done | exact IH]. Qed.

Lemma render_parseLine (p : Packet) :
  wellFormed p -> (NL ∉ render p) /\ parseLine (render p) = [p].
Proof.
  destruct p as [key body]. unfold wellFormed, render, Sprintf_s_colon_s.
  cbn [Key Body]. intros (Hne & Hc & Hnk & Hnb). split.
  - rewrite elem_of_app, elem_of_cons. intros [?|[?|?]]; done.
  - rewrite parseLine_spec, (IndexByte_app _ _ _ Hc).
    destruct key as [|c key]; [done|].
    change (length (c :: key)) with (S (length key)). cbn beta iota.
    change (S (S (length key))) with (S (length (c :: key))).
    rewrite drop_past, decide_False by done.
    change (S (length key)) with (length (c :: key)).
    by rewrite take_app_length.
Qed.

(** X2.  Records written one per line and joined by newlines parse back
    to the same records, when each can be carried by a line: a key that is
    not empty and has no colon, no newline in key or body. *)
Theorem parseMessage_render (ps : list Packet) :
  Forall wellFormed ps ->
  parseMessage (Join (render <$> ps) NL) = ps.
Proof.
  intros Hwf. rewrite parseMessage_concat.
  destruct ps as [|p ps]; [done|].
  rewrite Split_Join; [|done|].
  - induction Hwf as [|q qs Hq _ IH]; [done|].
    cbn [fmap list_fmap concat].
    rewrite (proj2 (render_parseLine q Hq)). cbn [app]. f_equal. exact IH.
  - apply Forall_fmap. eapply Forall_impl; [exact Hwf|].
    intros q Hq. apply (render_parseLine q Hq).
Qed.

Lemma parseMessage_render_witness :
  Forall wellFormed [samplePacket; mkPacket (B "k") []]
  /\ parseMessage (Join (render <$> [samplePacket; mkPacket (B "k") []]) NL)
     = [samplePacket; mkPacket (B "k") []].
Proof.
  assert (Forall wellFormed [samplePacket; mkPacket (B "k") []]) as H.
  { apply (bool_decide_unpack _). vm_compute. exact I. }
  split; [exact H | exact (parseMessage_render _ H)].
Defined.

(** X3.  On any line, [FindSubmatch] with [packetRegexp] finds nothing or
    three slices: the line, the key and the body, with the line being key,
    colon, body.  So where [parseMessage] takes [item[1]] and [item[2]]
    they are there. *)
Theorem FindSubmatch_three (line : bytes) :
  FindSubmatch packetRegexp line = []
  \/ exists key body,
       FindSubmatch packetRegexp line = [line; key; body]
       /\ line = key ++ COLON :: body /\ key <> [].
Proof.
  rewrite FindSubmatch_packetRegexp.
  destruct (IndexByte line COLON) as [[|i]|] eqn:E; [by left| |by left].
  case_decide; [by left|]. right.
  apply IndexByte_Some in E as (Heq & _ & Hlt).
  exists (take (S i) line), (drop (S (S i)) line).
  split; [done|]. split; [done|].
  intros Hnil%(f_equal length). rewrite length_take in Hnil.
  cbn [length] in Hnil. lia.
Qed.

Lemma parseLine_key_body (line : bytes) (p : Packet) :
  (NL ∉ line) -> p ∈ parseLine line ->
  (NL ∉ Key p) /\ (NL ∉ Body p) /\ render p = line.
Proof.
  intros Hnl Hp.
  destruct (parseLine_record line p Hp) as (_ & _ & Heq).
  unfold render, Sprintf_s_colon_s. rewrite Heq. rewrite <- Heq in Hnl.
  rewrite elem_of_app, elem_of_cons in Hnl. split; [|split]; [| |done].
  - intros ?. apply Hnl. by left.
  - intros ?. apply Hnl. right. by right.
Qed.

(** X4.  No record has a newline, in its key or in its body. *)
Theorem parseMessage_no_newline (data : bytes) :
  Forall (fun p => (NL ∉ Key p) /\ (NL ∉ Body p)) (parseMessage data).
Proof.
  rewrite parseMessage_concat. apply Forall_forall. intros p Hp.
  apply elem_of_concat in Hp as (ps & Hp & Hps).
  apply list_elem_of_fmap in Hps as (line & -> & Hline).
  pose proof (Split_no_sep NL data) as Hall.
  rewrite Forall_forall in Hall.
  destruct (parseLine_key_body line p (Hall line Hline) Hp) as (? & ? & _).
  done.
Qed.

Lemma Split_total (s : bytes) (sep : byte) :
  sum_list_with (fun l => S (length l)) (Split s sep) = S (length s).
Proof.
  induction s as [|c s IH]; cbn [Split]; [done|].
  case_decide.
  - simpl. simpl in IH. rewrite IH. lia.
  - destruct (Split s sep) as [|l ls]; [done|].
    simpl in *. lia.
Qed.

Lemma parseLine_cost (line : bytes) :
  3 * length (parseLine line) <= S (length line).
Proof.
  rewrite parseLine_spec.
  destruct (IndexByte line COLON) as [[|i]|] eqn:E; cbn [length]; [lia| |lia].
  apply IndexByte_Some in E as (_ & _ & Hlt).
  case_decide; cbn [length]; lia.
Qed.

Lemma parseLines_cost (lines : list bytes) :
  3 * length (concat (parseLine <$> lines))
  <= sum_list_with (fun l => S (length l)) lines.
Proof.
  induction lines as [|l ls IH]; [done|].
  cbn [fmap list_fmap concat]. rewrite length_app.
  pose proof (parseLine_cost l). simpl. lia.
Qed.

(** X5.  A record takes at least three bytes of the buffer, its newline
    counted: a buffer of n bytes has at most (n + 1) / 3 records.  A
    datagram is cut to 512 bytes when it is read, so it has at most 171
    records, and is answered by at most 171 packets to each destination. *)
Theorem parseMessage_bound (data : bytes) (ds : list Destination) :
  3 * length (parseMessage data) <= S (length data)
  /\ length (parseMessage (take 512 data)) <= 171
  /\ length (fanout ds (parseMessage (take 512 data))) <= 171 * length ds.
Proof.
  assert (forall b, 3 * length (parseMessage b) <= S (length b)) as H.
  { intros b. rewrite parseMessage_concat, <- (Split_total b NL).
    apply parseLines_cost. }
  split; [apply H|].
  assert (length (parseMessage (take 512 data)) <= 171) as H171.
  { pose proof (H (take 512 data)) as Hb. rewrite length_take in Hb. lia. }
  split; [exact H171|].
  rewrite fanout_length. by apply Nat.mul_le_mono_r.
Qed.



(** ** Dialing the destinations *)

Lemma drop_tail {A} (k : nat) (l : list A) : drop k (tail l) = drop (S k) l.
Proof. destruct l; [|done]. cbn [tail]. by rewrite !drop_nil. Qed.

Lemma dialsOk_step (k : nat) (w : World) :
  dialsOk (S k) w ->
  ~ dialFails w /\ dialsOk k (set_nextConn S (set_dials tail w)).
Proof.
  unfold dialsOk, dialFails. cbn [dials set_nextConn set_dials].
  destruct (dials w) as [|b l]; cbn [take tail head].
  - intros _. split; [done|]. rewrite take_nil. constructor.
  - intros H. inversion H as [|? ? Hb Hl]; subst. split; [|done].
    by intros [= <-].
Qed.

Lemma DialTimeout_ok (addr : bytes) (timeout : N) (w : World) :
  ~ dialFails w ->
  DialTimeout addr timeout w
  = ([EvDial addr timeout (Some (mkConn (nextConn w) addr))],
     set_nextConn S (set_dials tail w), Ret (Some (mkConn (nextConn w) addr))).
Proof.
  unfold dialFails, DialTimeout. by destruct (dials w) as [|[] ?].
Qed.

Lemma DialTimeout_fails (addr : bytes) (timeout : N) (w : World) :
  dialFails w ->
  DialTimeout addr timeout w
  = ([EvDial addr timeout None], set_dials tail w, Ret None).
Proof.
  unfold dialFails, DialTimeout. by destruct (dials w) as [|[] ?].
Qed.

(** X7.  When the dials succeed, the first loop of [processData] dials
    every destination once, in order, toward its address and with a
    timeout of one second, and returns the new sockets in that order. *)
Theorem dialAll_ok (ds : list Destination) (destConns : list Conn)
    (w : World) :
  dialsOk (length ds) w ->
  dialAll ds destConns w
  = (dialEvents (nextConn w) ds,
     set_nextConn (fun n => n + length ds)
       (set_dials (drop (length ds)) w),
     Ret (destConns ++ freshConns (nextConn w) ds)).
Proof.
  revert destConns w. induction ds as [|d ds IH]; intros destConns w Hok.
  - cbn. rewrite app_nil_r. destruct w. unfold set_nextConn, set_dials. cbn.
    by rewrite Nat.add_0_r.
  - cbn [dialAll length]. apply dialsOk_step in Hok as [Hd Hok].
    rewrite (bind_Ret _ _ _ _ _ _ (DialTimeout_ok (Address d) Second w Hd)).
    rewrite (IH _ _ Hok). proj.
    unfold dialEvents, freshConns. cbn [nextConn set_nextConn set_dials].
    cbn [length seq fmap list_fmap zip_with app].
    rewrite <- app_assoc. cbn [app]. f_equal. f_equal.
    unfold set_nextConn, set_dials. cbn. rewrite drop_tail. f_equal. lia.
Qed.

Lemma dialAll_ok_witness :
  dialsOk (length sampleDests) quiet
  /\ outcome (dialAll sampleDests [] quiet) = Ret sampleConns.
Proof.
  assert (dialsOk (length sampleDests) quiet) as H by constructor.
  split; [exact H|].
  exact (f_equal outcome (dialAll_ok sampleDests [] quiet H)).
Defined.

Lemma dialAll_fails_run (ds : list Destination) (destConns : list Conn)
    (w : World) (k : nat) (dk : Destination) :
  ds !! k = Some dk -> dialsOk k w -> dials w !! k = Some false ->
  dialAll ds destConns w
  = (dialEvents (nextConn w) (take k ds)
       ++ [EvDial (Address dk) Second None;
           EvFatal "ERROR: UDP connection failed - %s"],
     set_nextConn (fun n => n + k) (set_dials (drop (S k)) w),
     Exit 1).
Proof.
  revert destConns w k. induction ds as [|d ds IH];
    intros destConns w k Hk Hok Hf; [done|].
  cbn [dialAll]. destruct k as [|k].
  - injection Hk as ->.
    assert (dialFails w) as Hd.
    { unfold dialFails. destruct (dials w); [done|]. by injection Hf as ->. }
    rewrite (bind_Ret _ _ _ _ _ _ (DialTimeout_fails (Address dk) Second w Hd)).
    proj. cbn. do 2 f_equal. destruct w. unfold set_nextConn, set_dials. cbn.
    rewrite Nat.add_0_r. done.
  - cbn [lookup list_lookup] in Hk.
    pose proof Hok as [Hd Hok']%dialsOk_step.
    rewrite (bind_Ret _ _ _ _ _ _ (DialTimeout_ok (Address d) Second w Hd)).
    rewrite (IH _ _ k Hk Hok'). 2: {
      cbn [dials set_nextConn set_dials]. rewrite <- Hf.
      by destruct (dials w). }
    proj. unfold dialEvents, freshConns.
    cbn [nextConn set_nextConn set_dials take length seq fmap list_fmap
         zip_with app].
    f_equal. f_equal. unfold set_nextConn, set_dials. cbn.
    rewrite drop_tail. f_equal. lia.
Qed.

(** X8.  When dial [k] is the first to fail, the destinations before it
    have been dialed, the failure is logged and the process exits with
    status 1: no destination after it is dialed. *)
Theorem dialAll_fails (ds : list Destination) (destConns : list Conn)
    (w : World) (k : nat) (dk : Destination) :
  ds !! k = Some dk -> dialsOk k w -> dials w !! k = Some false ->
  dialAll ds destConns w
  = (dialEvents (nextConn w) (take k ds)
       ++ [EvDial (Address dk) Second None;
           EvFatal "ERROR: UDP connection failed - %s"],
     set_nextConn (fun n => n + k) (set_dials (drop (S k)) w),
     Exit 1).
Proof. apply dialAll_fails_run. Qed.

Lemma dialAll_fails_witness :
  sampleDests !! 1 = Some devDest
  /\ dialsOk 1 (mkWorld true true [true; false] [] 0 [] [])
  /\ dials (mkWorld true true [true; false] [] 0 [] []) !! 1 = Some false
  /\ outcome (dialAll sampleDests []
                (mkWorld true true [true; false] [] 0 [] []))
     = Exit 1.
Proof.
  assert (dialsOk 1 (mkWorld true true [true; false] [] 0 [] [])) as H
    by (repeat constructor).
  split; [reflexivity|]. split; [exact H|]. split; [reflexivity|].
  exact (f_equal outcome
           (dialAll_fails sampleDests [] _ 1 devDest eq_refl H eq_refl)).
Defined.

(** ** No write on a closed socket *)

Lemma closes_app (e1 e2 : list Event) :
  closes (e1 ++ e2) = closes e1 ++ closes e2.
Proof. apply omap_app. Qed.

Lemma closedOk_app (closed : list Conn) (e1 e2 : list Event) :
  closedOk closed (e1 ++ e2)
  <-> closedOk closed e1 /\ closedOk (rev (closes e1) ++ closed) e2.
Proof.
  revert closed. induction e1 as [|e e1 IH]; intros closed.
  - cbn. tauto.
  - destruct e; cbn [app closedOk closes omap]; try apply IH.
    + rewrite IH. tauto.
    + rewrite IH. change (closes (EvClose conn :: e1)) with (conn :: closes e1).
      cbn [rev]. rewrite <- app_assoc. cbn [app]. tauto.
Qed.

Lemma staysTidy_bind (m : M (list Conn)) (f : list Conn -> M (list Conn))
    (w : World) (closed : list Conn) :
  staysTidy closed (m w) ->
  (forall destConns' w' closed',
     tidy w' destConns' closed' -> staysTidy closed' (f destConns' w')) ->
  staysTidy closed (bind m f w).
Proof.
  unfold staysTidy at 1. intros [Hc Ho] Hf.
  destruct (m w) as [[e1 w1] [conns1|st|]] eqn:E; proj.
  - rewrite (bind_Ret _ _ _ _ _ _ E).
    destruct (Hf _ _ _ Ho) as [Hc2 Ho2]. unfold staysTidy. proj. split.
    + apply closedOk_app. by split.
    + destruct (outcome (f conns1 w1)); [|done..].
      by rewrite closes_app, rev_app_distr, <- app_assoc.
  - rewrite (bind_Exit _ _ _ _ _ _ E). by split.
  - rewrite (bind_Panic _ _ _ _ _ E). by split.
Qed.

Lemma NoDup_replace (l : list Conn) (i : nat) (old new : Conn) :
  l !! i = Some old -> NoDup l -> new ∉ l ->
  NoDup (<[i := new]> l)
  /\ (forall conn, conn ∈ <[i := new]> l ->
        conn = new \/ (conn ∈ l /\ conn <> old)).
Proof.
  intros Hi Hnd Hnew.
  apply list_elem_of_split_length in Hi as (l1 & l2 & -> & ->).
  rewrite insert_app_r_alt, Nat.sub_diag by lia.
  cbn [insert list_insert].
  apply NoDup_app in Hnd as (Hn1 & Hn12 & Hn2).
  apply NoDup_cons in Hn2 as [Hold Hn2].
  rewrite elem_of_app, elem_of_cons in Hnew. split.
  - apply NoDup_app. split; [done|]. split.
    + intros x Hx. rewrite elem_of_cons. intros [->|Hx2]; [tauto|].
      apply (Hn12 x Hx). by right.
    + apply NoDup_cons. split; [tauto | done].
  - intros conn. rewrite !elem_of_app, !elem_of_cons.
    intros [H1|[->|H2]]; [right | by left | right].
    + split; [by left|]. intros ->. apply (Hn12 old H1). by left.
    + split; [right; by right|]. by intros ->.
Qed.

Lemma forward_tidy (p : Packet) (i : nat) (d : Destination)
    (destConns closed : list Conn) (w : World) :
  tidy w destConns closed ->
  staysTidy closed (forward p i d destConns w).
Proof.
  intros (Hnd & Hid & Hdis).
  destruct (destConns !! i) as [conn|] eqn:Hc.
  2: { unfold forward. rewrite Hc. by split. }
  assert (conn ∈ destConns) as Hin by by eapply list_elem_of_lookup_2.
  destruct (decide (writeFails w)) as [Hw|Hw];
    [destruct (decide (dialFails w)) as [Hd|Hd]|].
  - rewrite (forward_fatal _ _ _ _ _ _ Hc Hw Hd). split; [|done].
    cbn. auto.
  - rewrite (forward_reconnect _ _ _ _ _ _ Hc Hw Hd). split.
    { cbn. auto. }
    proj. cbn [closes omap rev app].
    change (closes _) with [conn]. cbn [rev app].
    set (conn' := mkConn (nextConn w) (Address d)).
    assert (forall c, c ∈ destConns ++ closed -> c <> conn') as Hfresh.
    { intros c Hcin ->. rewrite Forall_forall in Hid.
      specialize (Hid _ Hcin). cbn in Hid. lia. }
    assert (conn' ∉ destConns) as Hnew.
    { intros H. apply (Hfresh conn'); [|done]. apply elem_of_app. by left. }
    destruct (NoDup_replace destConns i conn conn' Hc Hnd Hnew) as [Hnd' Hel].
    split; [done|]. split.
    + cbn [nextConn set_nextConn set_dials set_writes].
      apply Forall_forall. intros c Hcin.
      apply elem_of_app in Hcin as [Hcin|Hcin].
      * apply Hel in Hcin as [->|[Hcin _]]; [cbn; lia|].
        rewrite Forall_forall in Hid.
        assert (conn_id c < nextConn w); [|lia].
        apply Hid, elem_of_app. by left.
      * rewrite Forall_forall in Hid.
        assert (conn_id c < nextConn w); [|lia].
        apply elem_of_cons in Hcin as [->|Hcin];
          apply Hid, elem_of_app; [by left | by right].
    + intros c Hcin. rewrite elem_of_cons.
      apply Hel in Hcin as [->|[Hcin Hne]].
      * intros [Heq|Hcl].
        -- apply (Hfresh conn); [|done]. apply elem_of_app. by left.
        -- apply (Hfresh conn'); [|done]. apply elem_of_app. by right.
      * intros [?|Hcl]; [done|]. by apply (Hdis c).
  - rewrite (forward_ok _ _ _ _ _ _ Hc Hw). split.
    { cbn. auto. }
    proj. cbn [closes omap rev app]. by split.
Qed.

Lemma ret_tidy (destConns closed : list Conn) (w : World) :
  tidy w destConns closed -> staysTidy closed (ret destConns w).
Proof. intros H. by split. Qed.

Lemma forDestinations_tidy (p : Packet) (i : nat) (rest : list Destination)
    (destConns closed : list Conn) (w : World) :
  tidy w destConns closed ->
  staysTidy closed (forDestinations p i rest destConns w).
Proof.
  revert i destConns closed w. induction rest as [|d rest IH];
    intros i destConns closed w Ht; cbn [forDestinations].
  - by apply ret_tidy.
  - apply staysTidy_bind; [by apply forward_tidy|].
    intros conns' w' closed' Ht'. by apply IH.
Qed.

Lemma forPackets_tidy (ds : list Destination) (ps : list Packet)
    (destConns closed : list Conn) (w : World) :
  tidy w destConns closed ->
  staysTidy closed (forPackets ds ps destConns w).
Proof.
  revert destConns closed w. induction ps as [|p ps IH];
    intros destConns closed w Ht; cbn [forPackets].
  - by apply ret_tidy.
  - apply staysTidy_bind; [by apply forDestinations_tidy|].
    intros conns' w' closed' Ht'. by apply IH.
Qed.

Lemma forData_tidy (ds : list Destination) (received : list Slice)
    (destConns closed : list Conn) (w : World) :
  tidy w destConns closed ->
  staysTidy closed (forData ds received destConns w).
Proof.
  revert destConns closed w. induction received as [|data received IH];
    intros destConns closed w Ht; cbn [forData].
  - by apply ret_tidy.
  - rewrite load_bind. apply staysTidy_bind; [by apply forPackets_tidy|].
    intros conns' w' closed' Ht'. by apply IH.
Qed.

Lemma dialAll_tidy (rest : list Destination) (destConns closed : list Conn)
    (w : World) :
  tidy w destConns closed ->
  staysTidy closed (dialAll rest destConns w).
Proof.
  revert destConns w. induction rest as [|d rest IH];
    intros destConns w Ht; cbn [dialAll].
  - by apply ret_tidy.
  - destruct (decide (dialFails w)) as [Hd|Hd].
    + rewrite (bind_Ret _ _ _ _ _ _ (DialTimeout_fails _ _ _ Hd)). by split.
    + rewrite (bind_Ret _ _ _ _ _ _ (DialTimeout_ok _ _ _ Hd)).
      destruct Ht as (Hnd & Hid & Hdis). rewrite Forall_forall in Hid.
      set (conn := mkConn (nextConn w) (Address d)).
      assert (forall c, c ∈ destConns ++ closed -> c <> conn) as Hfresh.
      { intros c Hcin ->. specialize (Hid _ Hcin). cbn in Hid. lia. }
      destruct (IH (destConns ++ [conn]) (set_nextConn S (set_dials tail w)))
        as [Hc Ho].
      { split; [|split].
        - apply NoDup_app. split; [done|]. split; [|apply NoDup_singleton].
          intros c Hcin ->%list_elem_of_singleton.
          apply (Hfresh conn); [|done]. apply elem_of_app. by left.
        - apply Forall_forall. intros c Hcin.
          cbn [nextConn set_nextConn set_dials].
          rewrite <- app_assoc in Hcin.
          apply elem_of_app in Hcin as [Hcin|Hcin].
          + assert (conn_id c < nextConn w); [|lia].
            apply Hid, elem_of_app. by left.
          + apply elem_of_cons in Hcin as [->|Hcin]; [cbn; lia|].
            assert (conn_id c < nextConn w); [|lia].
            apply Hid, elem_of_app. by right.
        - intros c [Hcin| ->%list_elem_of_singleton]%elem_of_app.
          + by apply Hdis.
          + intros Hcl. apply (Hfresh conn); [|done].
            apply elem_of_app. by right. }
      unfold staysTidy. proj. split; [exact Hc|].
      destruct (outcome _); [|done..]. exact Ho.
Qed.

Lemma staysTidy_after (pre : list Event) (closed : list Conn)
    (r : list Event * World * Outcome (list Conn)) :
  closes pre = [] -> written pre = [] -> staysTidy closed r ->
  staysTidy closed (pre ++ events r, world r, outcome r).
Proof.
  intros Hcl Hwr [Hc Ho]. unfold staysTidy. proj. split.
  - apply closedOk_app. rewrite Hcl. split; [|exact Hc].
    clear -Hcl Hwr. induction pre as [|e pre IH]; [done|].
    destruct e; try (apply IH; done); discriminate.
  - destruct (outcome r); [|done..]. by rewrite closes_app, Hcl.
Qed.

Lemma tidy_world (w w' : World) (destConns closed : list Conn) :
  nextConn w' = nextConn w -> tidy w destConns closed ->
  tidy w' destConns closed.
Proof. intros Hn (? & ? & ?). unfold tidy. by rewrite Hn. Qed.

Lemma udpListenerTurn_v01_tidy (ds : list Destination) (message : nat)
    (incoming : option bytes) (destConns closed : list Conn) (w : World) :
  tidy w destConns closed ->
  staysTidy closed (udpListenerTurn_v01 ds message incoming destConns w).
Proof.
  intros Ht. unfold udpListenerTurn_v01. destruct incoming as [d|].
  - erewrite bind_Ret by reflexivity. unfold log_Printf.
    rewrite emit_bind, load_bind. proj.
    apply (staysTidy_after [_; _]); [done..|].
    apply forPackets_tidy. by eapply tidy_world.
  - erewrite bind_Ret by reflexivity. unfold log_Printf.
    rewrite emit_bind. proj.
    apply (staysTidy_after [_; _] closed (ret destConns w)); [done..|].
    by apply ret_tidy.
Qed.

Lemma udpListenerLoop_v01_tidy (ds : list Destination) (message : nat)
    (incomings : list (option bytes)) (destConns closed : list Conn)
    (w : World) :
  tidy w destConns closed ->
  staysTidy closed (udpListenerLoop_v01 ds message incomings destConns w).
Proof.
  revert destConns closed w. induction incomings as [|incoming incomings IH];
    intros destConns closed w Ht; cbn [udpListenerLoop_v01].
  - by apply ret_tidy.
  - apply staysTidy_bind; [by apply udpListenerTurn_v01_tidy|].
    intros conns' w' closed' Ht'. by apply IH.
Qed.

Lemma tidy_start (w : World) : tidy w [] [].
Proof.
  split; [apply NoDup_nil_2|]. split; [constructor|].
  by intros c ?%elem_of_nil.
Qed.

(** X9.  Neither version ever writes on a socket it has closed, and
    neither closes a socket twice, whatever the network does. *)
Theorem no_write_after_close (ds : list Destination) (w : World) :
  (forall received, closedOk [] (events (processData received ds w)))
  /\ (forall address incomings,
        closedOk [] (events (udpListener_v01 address ds incomings w))).
Proof.
  split.
  - intros received. unfold processData.
    apply (staysTidy_bind (dialAll ds []) _ w []).
    + apply dialAll_tidy, tidy_start.
    + intros conns' w' closed' Ht. by apply forData_tidy.
  - intros address incomings. unfold udpListener_v01, log_Printf.
    rewrite emit_bind. proj.
    destruct (listenOk w) eqn:Hok.
    + rewrite (bind_Ret (ListenUDP address) _ w w [EvListen address true] true)
        by (unfold ListenUDP; by rewrite Hok).
      proj.
      apply (closedOk_app [] [_; _]). split; [done|]. cbn [closes omap rev app].
      apply (staysTidy_bind (dialAll ds []) _ w []).
      * apply dialAll_tidy, tidy_start.
      * intros conns' w' closed' Ht.
        erewrite bind_Ret by reflexivity.
        apply (staysTidy_after [_]); [done..|].
        apply udpListenerLoop_v01_tidy. by eapply tidy_world.
    + rewrite (bind_Ret (ListenUDP address) _ w w [EvListen address false] false)
        by (unfold ListenUDP; by rewrite Hok).
      done.
Qed.

(** ** No more sockets than destinations *)

Lemma openOk_app (n open : nat) (e1 e2 : list Event) :
  openOk n open (e1 ++ e2)
  <-> openOk n open e1 /\ openOk n (openAfter open e1) e2.
Proof.
  revert open. induction e1 as [|e e1 IH]; intros open.
  - cbn. tauto.
  - destruct e as [| | | | | | | | | | |? ? [?|]| |];
      cbn [app openOk openAfter]; try apply IH; rewrite IH; tauto.
Qed.

Lemma openAfter_app (open : nat) (e1 e2 : list Event) :
  openAfter open (e1 ++ e2) = openAfter (openAfter open e1) e2.
Proof.
  revert open. induction e1 as [|e e1 IH]; intros open; [done|].
  destruct e as [| | | | | | | | | | |? ? [?|]| |];
    cbn [app openAfter]; apply IH.
Qed.

Lemma keepsOpen_bind {A B} (m : M A) (f : A -> M B) (w : World)
    (n open mid open' : nat) :
  keepsOpen n open mid (m w) ->
  (forall a w', keepsOpen n mid open' (f a w')) ->
  keepsOpen n open open' (bind m f w).
Proof.
  unfold keepsOpen at 1. intros [Hc Ho] Hf.
  destruct (m w) as [[e1 w1] [a|st|]] eqn:E; proj.
  - rewrite (bind_Ret _ _ _ _ _ _ E).
    destruct (Hf a w1) as [Hc2 Ho2]. unfold keepsOpen. proj. split.
    + apply openOk_app. rewrite Ho. by split.
    + destruct (outcome (f a w1)); [|done..].
      by rewrite openAfter_app, Ho.
  - rewrite (bind_Exit _ _ _ _ _ _ E). by split.
  - rewrite (bind_Panic _ _ _ _ _ E). by split.
Qed.

Lemma forward_keepsOpen (p : Packet) (i : nat) (d : Destination)
    (destConns : list Conn) (w : World) (n : nat) :
  0 < n -> keepsOpen n n n (forward p i d destConns w).
Proof.
  intros Hn. destruct (destConns !! i) as [conn|] eqn:Hc.
  2: { unfold forward. rewrite Hc. by split. }
  destruct (decide (writeFails w)) as [Hw|Hw];
    [destruct (decide (dialFails w)) as [Hd|Hd]|].
  - rewrite (forward_fatal _ _ _ _ _ _ Hc Hw Hd). split; [|done]. cbn. auto.
  - rewrite (forward_reconnect _ _ _ _ _ _ Hc Hw Hd). split; cbn.
    + split; [done|]. split; [lia | done].
    + lia.
  - rewrite (forward_ok _ _ _ _ _ _ Hc Hw). by split.
Qed.

Lemma forDestinations_keepsOpen (p : Packet) (i : nat)
    (rest : list Destination) (destConns : list Conn) (w : World)
    (n : nat) :
  length rest <= n ->
  keepsOpen n n n (forDestinations p i rest destConns w).
Proof.
  revert i destConns w. induction rest as [|d rest IH];
    intros i destConns w Hn; cbn [forDestinations]; [by split|].
  cbn [length] in Hn.
  apply (keepsOpen_bind _ _ _ n n n n);
    [apply forward_keepsOpen; lia|].
  intros conns' w'. apply IH. lia.
Qed.

Lemma forPackets_keepsOpen (ds : list Destination) (ps : list Packet)
    (destConns : list Conn) (w : World) :
  keepsOpen (length ds) (length ds) (length ds)
    (forPackets ds ps destConns w).
Proof.
  revert destConns w. induction ps as [|p ps IH]; intros destConns w;
    cbn [forPackets]; [by split|].
  eapply keepsOpen_bind; [by apply forDestinations_keepsOpen|].
  intros conns' w'. apply IH.
Qed.

Lemma forData_keepsOpen (ds : list Destination) (received : list Slice)
    (destConns : list Conn) (w : World) :
  keepsOpen (length ds) (length ds) (length ds)
    (forData ds received destConns w).
Proof.
  revert destConns w. induction received as [|data received IH];
    intros destConns w; cbn [forData]; [by split|].
  rewrite load_bind. eapply keepsOpen_bind; [apply forPackets_keepsOpen|].
  intros conns' w'. apply IH.
Qed.

Lemma dialAll_keepsOpen (rest : list Destination) (destConns : list Conn)
    (w : World) (n open : nat) :
  open + length rest <= n ->
  keepsOpen n open (open + length rest) (dialAll rest destConns w).
Proof.
  revert destConns w open. induction rest as [|d rest IH];
    intros destConns w open Hn; cbn [dialAll length] in *.
  - split; [done|]. cbn. lia.
  - destruct (decide (dialFails w)) as [Hd|Hd].
    + rewrite (bind_Ret _ _ _ _ _ _ (DialTimeout_fails _ _ _ Hd)). by split.
    + rewrite (bind_Ret _ _ _ _ _ _ (DialTimeout_ok _ _ _ Hd)).
      destruct (IH (destConns ++ [mkConn (nextConn w) (Address d)])
                  (set_nextConn S (set_dials tail w)) (S open))
        as [Hc Ho]; [lia|].
      unfold keepsOpen. proj. split.
      * cbn [app openOk]. split; [lia | done].
      * destruct (outcome _); [|done..]. cbn [app openAfter]. lia.
Qed.

Lemma keepsOpen_after {A} (pre : list Event) (n open open' : nat)
    (r : list Event * World * Outcome A) :
  closes pre = [] -> dialed pre = [] -> keepsOpen n open open' r ->
  keepsOpen n open open' (pre ++ events r, world r, outcome r).
Proof.
  intros Hcl Hdl [Hc Ho].
  assert (openOk n open pre /\ openAfter open pre = open) as [H1 H2].
  { clear -Hcl Hdl. revert open. induction pre as [|e pre IH]; intros open;
      [done|].
    destruct e as [| | | | | | | | | | |? ? [?|]| |];
      try (apply IH; done); discriminate. }
  unfold keepsOpen. proj. split.
  - apply openOk_app. by rewrite H2.
  - destruct (outcome r); [|done..]. by rewrite openAfter_app, H2.
Qed.

Lemma udpListenerLoop_v01_keepsOpen (ds : list Destination) (message : nat)
    (incomings : list (option bytes)) (destConns : list Conn) (w : World) :
  keepsOpen (length ds) (length ds) (length ds)
    (udpListenerLoop_v01 ds message incomings destConns w).
Proof.
  revert destConns w. induction incomings as [|incoming incomings IH];
    intros destConns w; cbn [udpListenerLoop_v01]; [by split|].
  eapply keepsOpen_bind; [|intros; apply IH].
  unfold udpListenerTurn_v01. destruct incoming as [d|].
  - erewrite bind_Ret by reflexivity. unfold log_Printf.
    rewrite emit_bind, load_bind. proj.
    apply (keepsOpen_after [_; _]); [done..|]. apply forPackets_keepsOpen.
  - erewrite bind_Ret by reflexivity. unfold log_Printf.
    rewrite emit_bind. proj.
    by apply (keepsOpen_after [_; _] _ _ _ (ret destConns w)).
Qed.

(** X10.  Neither version ever has more sockets to destinations open
    than there are destinations: a reconnect closes the old socket before
    it dials the new one, and nothing is closed that is not open. *)
Theorem sockets_bounded (ds : list Destination) (w : World) :
  (forall received,
     openOk (length ds) 0 (events (processData received ds w)))
  /\ (forall address incomings,
        openOk (length ds) 0
          (events (udpListener_v01 address ds incomings w))).
Proof.
  split.
  - intros received. unfold processData.
    apply (keepsOpen_bind (dialAll ds []) _ w (length ds) 0 (length ds)
             (length ds)).
    + apply (dialAll_keepsOpen ds [] w (length ds) 0). lia.
    + intros conns' w'. apply forData_keepsOpen.
  - intros address incomings. unfold udpListener_v01, log_Printf.
    rewrite emit_bind. proj.
    destruct (listenOk w) eqn:Hok.
    + rewrite (bind_Ret (ListenUDP address) _ w w [EvListen address true] true)
        by (unfold ListenUDP; by rewrite Hok).
      proj. apply (openOk_app _ _ [_; _]). split; [done|]. cbn [openAfter].
      apply (keepsOpen_bind (dialAll ds []) _ w (length ds) 0 (length ds)
               (length ds)).
      * apply (dialAll_keepsOpen ds [] w (length ds) 0). lia.
      * intros conns' w'. erewrite bind_Ret by reflexivity.
        apply (keepsOpen_after [_]); [done..|].
        apply udpListenerLoop_v01_keepsOpen.
    + rewrite (bind_Ret (ListenUDP address) _ w w [EvListen address false] false)
        by (unfold ListenUDP; by rewrite Hok).
      done.
Qed.

(** ** The two versions send the same *)

Lemma bind_world {A B} (m : M A) (f : A -> M B) (w : World) :
  world (bind m f w)
  = match outcome (m w) with
    | Ret a => world (f a (world (m w)))
    | _ => world (m w)
    end.
Proof.
  unfold bind. destruct (m w) as [[e1 w1] [a|st|]]; proj; [|done..].
  by destruct (f a w1) as [[e2 w2] o2].
Qed.

Lemma bind_outcome {A B} (m : M A) (f : A -> M B) (w : World) :
  outcome (bind m f w)
  = match outcome (m w) with
    | Ret a => outcome (f a (world (m w)))
    | Exit status => Exit status
    | Panic => Panic
    end.
Proof.
  unfold bind. destruct (m w) as [[e1 w1] [a|st|]]; proj; [|done..].
  by destruct (f a w1) as [[e2 w2] o2].
Qed.

Lemma agree_bind {A B} (m m' : M A) (f f' : A -> M B) (w w' : World) :
  agree (m w) (m' w') ->
  (forall a, outcome (m w) = Ret a ->
     agree (f a (world (m w))) (f' a (world (m' w')))) ->
  agree (bind m f w) (bind m' f' w').
Proof.
  intros (Hw & Ho & Hn) Hf. unfold agree.
  rewrite !bind_events, !bind_outcome, !bind_world, !written_app, <- Ho, Hw.
  destruct (outcome (m w)) as [a|st|]; [|by rewrite !app_nil_r..].
  destruct (Hf a eq_refl) as (Hw2 & Ho2 & Hn2). by rewrite Hw2.
Qed.

Lemma agree_refl_net {A} (r r' : list Event * World * Outcome A) :
  events r = events r' -> outcome r = outcome r' ->
  sameNet (world r) (world r') -> agree r r'.
Proof. intros He Ho Hn. unfold agree. by rewrite He. Qed.

Lemma forward_agree (p : Packet) (i : nat) (d : Destination)
    (destConns : list Conn) (w w' : World) :
  sameNet w w' ->
  agree (forward p i d destConns w) (forward p i d destConns w').
Proof.
  intros (Hd & Hw & Hn).
  destruct (destConns !! i) as [conn|] eqn:Hc.
  2: { unfold forward. rewrite Hc. by split. }
  assert (writeFails w <-> writeFails w') as Hwf
    by (unfold writeFails; by rewrite Hw).
  assert (dialFails w <-> dialFails w') as Hdf
    by (unfold dialFails; by rewrite Hd).
  destruct (decide (writeFails w)) as [H1|H1];
    [destruct (decide (dialFails w)) as [H2|H2]|].
  - rewrite (forward_fatal _ _ _ _ _ w Hc H1 H2),
      (forward_fatal _ _ _ _ _ w' Hc) by tauto.
    apply agree_refl_net; [done..|]. unfold sameNet. cbn. by rewrite Hd, Hw.
  - rewrite (forward_reconnect _ _ _ _ _ w Hc H1 H2),
      (forward_reconnect _ _ _ _ _ w' Hc) by tauto.
    apply agree_refl_net; proj; [by rewrite Hn..|].
    unfold sameNet. cbn. by rewrite Hd, Hw, Hn.
  - rewrite (forward_ok _ _ _ _ _ w Hc H1),
      (forward_ok _ _ _ _ _ w' Hc) by tauto.
    apply agree_refl_net; [done..|]. unfold sameNet. cbn. by rewrite Hw.
Qed.

Lemma agree_net {A} (r r' : list Event * World * Outcome A) :
  agree r r' -> sameNet (world r) (world r').
Proof. by intros (_ & _ & ?). Qed.

Lemma forDestinations_agree (p : Packet) (i : nat) (rest : list Destination)
    (destConns : list Conn) (w w' : World) :
  sameNet w w' ->
  agree (forDestinations p i rest destConns w)
    (forDestinations p i rest destConns w').
Proof.
  revert i destConns w w'. induction rest as [|d rest IH];
    intros i destConns w w' Hn; cbn [forDestinations].
  - by apply agree_refl_net.
  - pose proof (forward_agree p i d destConns w w' Hn) as Hf.
    apply agree_bind; [done|]. intros a _. apply IH. by eapply agree_net.
Qed.

Lemma forPackets_agree (ds : list Destination) (ps : list Packet)
    (destConns : list Conn) (w w' : World) :
  sameNet w w' ->
  agree (forPackets ds ps destConns w) (forPackets ds ps destConns w').
Proof.
  revert destConns w w'. induction ps as [|p ps IH];
    intros destConns w w' Hn; cbn [forPackets].
  - by apply agree_refl_net.
  - pose proof (forDestinations_agree p 0 ds destConns w w' Hn) as Hf.
    apply agree_bind; [done|]. intros a _. apply IH. by eapply agree_net.
Qed.

Lemma dialAll_agree (rest : list Destination) (destConns : list Conn)
    (w w' : World) :
  sameNet w w' ->
  agree (dialAll rest destConns w) (dialAll rest destConns w').
Proof.
  revert destConns w w'. induction rest as [|d rest IH];
    intros destConns w w' Hsame; cbn [dialAll].
  - by apply agree_refl_net.
  - pose proof Hsame as (Hd & Hw & Hn).
    assert (dialFails w <-> dialFails w') as Hdf
      by (unfold dialFails; by rewrite Hd).
    destruct (decide (dialFails w)) as [H|H].
    + rewrite (bind_Ret _ _ _ _ _ _ (DialTimeout_fails _ _ w H)).
      rewrite (bind_Ret _ _ _ _ _ _ (DialTimeout_fails _ _ w' (proj1 Hdf H))).
      apply agree_refl_net; [done..|]. unfold sameNet. cbn. by rewrite Hd, Hw.
    + rewrite (bind_Ret _ _ _ _ _ _ (DialTimeout_ok _ _ w H)).
      assert (~ dialFails w') as H' by tauto.
      rewrite (bind_Ret _ _ _ _ _ _ (DialTimeout_ok _ _ w' H')).
      rewrite <- Hn.
      destruct (IH (destConns ++ [mkConn (nextConn w) (Address d)])
                  (set_nextConn S (set_dials tail w))
                  (set_nextConn S (set_dials tail w')))
        as (Hwr & Ho & Hnet).
      { unfold sameNet. cbn. by rewrite Hd, Hw, Hn. }
      unfold agree. proj. by rewrite !written_app, Hwr.
Qed.

Lemma forDestinations_heap (p : Packet) (i : nat) (rest : list Destination)
    (destConns : list Conn) (w : World) :
  heap (world (forDestinations p i rest destConns w)) = heap w.
Proof.
  revert i destConns w. induction rest as [|d rest IH];
    intros i destConns w; cbn [forDestinations]; [done|].
  rewrite bind_world. pose proof (forward_heap p i d destConns w) as H.
  destruct (outcome _); [|done..]. by rewrite IH.
Qed.

Lemma forPackets_heap (ds : list Destination) (ps : list Packet)
    (destConns : list Conn) (w : World) :
  heap (world (forPackets ds ps destConns w)) = heap w.
Proof.
  revert destConns w. induction ps as [|p ps IH]; intros destConns w;
    cbn [forPackets]; [done|].
  rewrite bind_world.
  pose proof (forDestinations_heap p 0 ds destConns w) as H.
  destruct (outcome _); [|done..]. by rewrite IH.
Qed.

Lemma udpListenerLoop_net (incomings : list (option bytes)) (w : World) :
  sameNet w (world (udpListenerLoop incomings w)).
Proof.
  revert w. induction incomings as [|incoming incomings IH]; intros w;
    cbn [udpListenerLoop]; [done|].
  rewrite bind_world, udpListenerTurn_run.
  destruct incoming as [d|]; proj.
  - destruct (IH (set_dataCh (fun q => q ++ [mkSlice (length (heap w))
                                               (Nat.min (length d) 512)])
                    (set_heap (fun h => h ++ [take (Nat.min (length d) 512) d
                                                ++ replicate
                                                     (512 - Nat.min (length d) 512)
                                                     x00]) w)))
      as (H1 & H2 & H3).
    by split.
  - destruct (IH (set_heap (fun h => h ++ [replicate 512 x00]) w))
      as (H1 & H2 & H3).
    by split.
Qed.

(** The router of version 0.3.1 on the slices of a channel, and the loop
    of version 0.1 on the datagrams those slices show. *)
Lemma forData_v01_agree (ds : list Destination) (message : nat)
    (incomings : list (option bytes)) (received : list Slice)
    (destConns : list Conn) (w w' : World) :
  sameNet w w' -> bufferAt message (heap w') ->
  view (heap w) <$> received = omap (fmap (take 512)) incomings ->
  agree (forData ds received destConns w)
    (udpListenerLoop_v01 ds message incomings destConns w').
Proof.
  revert received destConns w w'.
  induction incomings as [|incoming incomings IH];
    intros received destConns w w' Hnet Hb Hv.
  - destruct received; [|done]. by apply agree_refl_net.
  - cbn [udpListenerLoop_v01]. destruct incoming as [d|].
    + destruct received as [|data received]; [done|].
      cbn [fmap list_fmap omap option_fmap option_map] in Hv.
      injection Hv as Hd Hv. cbn [forData]. rewrite load_bind, Hd.
      destruct (ReadFromUDP_Some d message w' Hb)
        as (w1 & Hr & Hb1 & Hv1 & _ & _ & _).
      assert (sameNet w w1) as Hnet1.
      { destruct Hnet as (? & ? & ?).
        pose proof (f_equal world Hr) as Hw1. unfold world in Hw1.
        cbn [fst snd] in Hw1. subst w1. by split. }
      assert (udpListenerTurn_v01 ds message (Some d) destConns w'
              = ([EvRead message (Some (Nat.min (length d) 512));
                  EvLog "message: %s (%d)"]
                   ++ events (forPackets ds (parseMessage (take 512 d))
                                destConns w1),
                 world (forPackets ds (parseMessage (take 512 d))
                          destConns w1),
                 outcome (forPackets ds (parseMessage (take 512 d))
                            destConns w1))) as Hturn.
      { unfold udpListenerTurn_v01. rewrite (bind_Ret _ _ _ _ _ _ Hr).
        unfold log_Printf. rewrite emit_bind, load_bind, Hv1. by proj. }
      pose proof (forPackets_agree ds (parseMessage (take 512 d)) destConns
                    w w1 Hnet1) as (Hw & Ho & Hn).
      apply agree_bind.
      * rewrite Hturn. unfold agree. proj. by rewrite written_app.
      * intros a Ha. rewrite Hturn. proj. apply IH; [done| |].
        -- by rewrite forPackets_heap.
        -- by rewrite forPackets_heap.
    + cbn [omap option_fmap option_map fmap] in Hv.
      assert (udpListenerTurn_v01 ds message None destConns w'
              = ([EvRead message None;
                  EvLog "ERROR: reading UDP packet from %+v - %s"],
                 w', Ret destConns)) as Hturn by done.
      rewrite (bind_Ret _ _ _ _ _ _ Hturn).
      destruct (IH received destConns w w' Hnet Hb Hv) as (Hw & Ho & Hn).
      unfold agree. proj. by rewrite written_app.
Qed.

Lemma agree_after {A} (pre es : list Event) (w' : World) (o' : Outcome A)
    (r : list Event * World * Outcome A) :
  written pre = [] -> agree r (es, w', o') -> agree r (pre ++ es, w', o').
Proof.
  intros Hpre (Hw & Ho & Hn). unfold agree. proj.
  by rewrite written_app, Hpre.
Qed.

Lemma run_eta {A} (r : list Event * World * Outcome A) :
  (events r, world r, outcome r) = r.
Proof. by destruct r as [[? ?] ?]. Qed.

Lemma sameNet_sym (w w' : World) : sameNet w w' -> sameNet w' w.
Proof. intros (H1 & H2 & H3). by split. Qed.

Lemma udpListenerSetup_ok (address : bytes) (w : World) :
  listenOk w = true ->
  world (udpListenerSetup address w) = w
  /\ outcome (udpListenerSetup address w) = Ret tt.
Proof.
  intros Hok. unfold udpListenerSetup, log_Printf, emit, bind, ListenUDP,
    SetReadBuffer.
  rewrite Hok. by destruct (setReadBufferOk w).
Qed.

Lemma dialAll_heap (ds : list Destination) (w : World) (a : list Conn) :
  outcome (dialAll ds [] w) = Ret a -> heap (world (dialAll ds [] w)) = heap w.
Proof.
  intros Ho. pose proof (dialAll_sendsAll [] ds [] w) as H.
  unfold sendsAll in H. rewrite Ho in H. symmetry. apply H. constructor.
Qed.

(** X11.  The two versions send the same: on the same datagrams and read
    errors, and with the network answering the writes and dials alike,
    the router of version 0.3.1, fed by its listener through the channel,
    writes the same packets on the same sockets with the same results as
    version 0.1, and ends the same way. *)
Theorem versions_agree (ds : list Destination) (address : bytes)
    (incomings : list (option bytes)) (w : World) :
  listenOk w = true -> dataCh w = [] ->
  let listened := udpListener address incomings w in
  let r := processData (dataCh (world listened)) ds (world listened) in
  let r' := udpListener_v01 address ds incomings w in
  written (events r) = written (events r') /\ outcome r = outcome r'.
Proof.
  intros Hok Hq listened r r'.
  destruct (udpListenerSetup_ok address w Hok) as [Hsw Hso].
  assert (world listened = world (udpListenerLoop incomings w)) as Hw1.
  { subst listened. unfold udpListener. rewrite bind_world, Hso. by rewrite Hsw. }
  set (w1 := world (udpListenerLoop incomings w)) in *.
  assert (sameNet w1 w) as Hnet by apply sameNet_sym, udpListenerLoop_net.
  assert (view (heap w1) <$> dataCh w1 = omap (fmap (take 512)) incomings)
    as Hviews.
  { destruct (udpListenerLoop_views incomings w) as (_ & _ & _ & Hv).
    - unfold queueInHeap. rewrite Hq. constructor.
    - fold w1 in Hv. by rewrite Hv, Hq. }
  enough (agree r r') as (? & ? & _) by done.
  subst r r'. rewrite Hw1. unfold processData, udpListener_v01, log_Printf.
  rewrite emit_bind.
  rewrite (bind_Ret (ListenUDP address) _ w w [EvListen address true] true)
    by (unfold ListenUDP; by rewrite Hok).
  proj. apply (agree_after [_]); [done|]. apply (agree_after [_]); [done|].
  rewrite run_eta.
  pose proof (dialAll_agree ds [] w1 w Hnet) as Hd.
  apply agree_bind; [exact Hd|]. intros a Ha.
  assert (outcome (dialAll ds [] w) = Ret a) as Ha'
    by (destruct Hd as (_ & <- & _); exact Ha).
  erewrite (bind_Ret (make 512)) by reflexivity.
  apply (agree_after [_]); [done|]. rewrite run_eta.
  apply forData_v01_agree.
  - destruct Hd as (_ & _ & (? & ? & ?)). by split.
  - exists (replicate 512 x00). cbn [heap set_heap]. split.
    + by rewrite lookup_app_r, Nat.sub_diag by lia.
    + apply length_replicate.
  - by rewrite (dialAll_heap ds w1 a Ha).
Qed.

Lemma versions_agree_witness :
  listenOk flaky = true /\ dataCh flaky = []
  /\ written (events (processData
                       (dataCh (world (udpListener (B ":8125")
                                         [Some sampleData] flaky)))
                       sampleDests
                       (world (udpListener (B ":8125") [Some sampleData]
                                 flaky))))
     = written (events (udpListener_v01 (B ":8125") sampleDests
                          [Some sampleData] flaky)).
Proof.
  split; [reflexivity|]. split; [reflexivity|].
  exact (proj1 (versions_agree sampleDests (B ":8125") [Some sampleData]
                  flaky eq_refl eq_refl)).
Defined.

(** ** The listener of version 0.3.1 *)

Lemma sends_app (e1 e2 : list Event) : sends (e1 ++ e2) = sends e1 ++ sends e2.
Proof. apply omap_app. Qed.

Lemma readResults_app (e1 e2 : list Event) :
  readResults (e1 ++ e2) = readResults e1 ++ readResults e2.
Proof. apply omap_app. Qed.

Lemma udpListenerLoop_reads (incomings : list (option bytes)) (w : World) :
  let r := udpListenerLoop incomings w in
  outcome r = Ret tt
  /\ readResults (events r) = readSize <$> incomings
  /\ length (sends (events r)) = length (arrived incomings)
  /\ dataCh (world r) = dataCh w ++ sends (events r).
Proof.
  revert w. induction incomings as [|incoming incomings IH]; intros w.
  - cbn. by rewrite app_nil_r.
  - cbn zeta. cbn [udpListenerLoop].
    rewrite bind_events, bind_outcome, bind_world, udpListenerTurn_run.
    destruct incoming as [d|]; proj.
    + match goal with
      | |- context [udpListenerLoop incomings ?w1] =>
          destruct (IH w1) as (Ho & Hr & Hs & Hq)
      end.
      cbn zeta in *. rewrite readResults_app, sends_app, Hr, Ho, Hq.
      cbn [dataCh set_dataCh set_heap]. rewrite <- app_assoc.
      split; [done|]. split; [done|]. split; [|done].
      rewrite length_app, Hs. done.
    + match goal with
      | |- context [udpListenerLoop incomings ?w1] =>
          destruct (IH w1) as (Ho & Hr & Hs & Hq)
      end.
      cbn zeta in *. rewrite readResults_app, sends_app, Hr, Ho, Hq.
      split; [done|]. split; [done|]. split; [|done].
      rewrite length_app, Hs. done.
Qed.

(** X12.  The listener of version 0.3.1 ends only when it cannot bind
    its socket: then it logs and the process exits with status 1, and
    nothing is read.  Once bound, a failure to enlarge the read buffer is
    logged and nothing more; every read is made, a read error does not
    end the loop, and one slice goes into the channel for each datagram
    read, in order. *)
Theorem udpListener_runs (address : bytes) (incomings : list (option bytes))
    (w : World) :
  (listenOk w = false ->
   udpListener address incomings w
   = ([EvLog "listening on %s"; EvListen address false;
       EvFatal "ERROR: ListenUDP - %s"], w, Exit 1))
  /\ (listenOk w = true ->
      let r := udpListener address incomings w in
      outcome r = Ret tt
      /\ readResults (events r)
         = readSize <$> incomings
      /\ length (sends (events r)) = length (arrived incomings)
      /\ dataCh (world r) = dataCh w ++ sends (events r)).
Proof.
  split; intros Hok.
  - unfold udpListener, udpListenerSetup, log_Printf, emit, bind, ListenUDP.
    by rewrite Hok.
  - intros r. subst r. unfold udpListener.
    destruct (udpListenerLoop_reads incomings w) as (Ho & Hr & Hs & Hq).
    cbn zeta in *.
    assert (exists pre, udpListenerSetup address w = (pre, w, Ret tt)
                        /\ readResults pre = [] /\ sends pre = [])
      as (pre & Hsetup & Hp1 & Hp2).
    { unfold udpListenerSetup, log_Printf, emit, bind, ListenUDP,
        SetReadBuffer.
      rewrite Hok. destruct (setReadBufferOk w); eexists; by repeat split. }
    rewrite (bind_Ret _ _ _ _ _ _ Hsetup). proj.
    by rewrite readResults_app, sends_app, Hp1, Hp2.
Qed.

Lemma udpListener_runs_witness :
  listenOk (mkWorld true false [] [] 0 [] []) = true
  /\ outcome (udpListener (B ":8125") sampleIncomings
                (mkWorld true false [] [] 0 [] []))
     = Ret tt
  /\ readResults (events (udpListener (B ":8125") sampleIncomings
                            (mkWorld true false [] [] 0 [] [])))
     = [Some 18; None; Some 512].
Proof.
  split; [reflexivity|].
  destruct (proj2 (udpListener_runs (B ":8125") sampleIncomings
                     (mkWorld true false [] [] 0 [] [])) eq_refl)
    as (H1 & H2 & _).
  split; [exact H1|]. etransitivity; [exact H2|]. vm_compute. reflexivity.
Defined.

(** ** The start of version 0.1 *)

Lemma dialEvents_quiet (n : nat) (ds : list Destination) :
  readResults (dialEvents n ds) = [] /\ written (dialEvents n ds) = [].
Proof.
  unfold dialEvents. induction (freshConns n ds) as [|c l [IH1 IH2]]; [done|].
  split; [exact IH1 | exact IH2].
Qed.

(** X13.  Version 0.1 reads nothing before its socket is bound and every
    destination is dialed: when the bind fails, or when the dial to a
    destination fails, the process logs that and exits with status 1
    without a read or a write. *)
Theorem v01_startup_fatal (address : bytes) (ds : list Destination)
    (incomings : list (option bytes)) (w : World) :
  (listenOk w = false ->
   udpListener_v01 address ds incomings w
   = ([EvLog "listening on %s"; EvListen address false;
       EvFatal "ERROR: ListenUDP - %s"], w, Exit 1))
  /\ (forall k dk,
        listenOk w = true -> ds !! k = Some dk -> dialsOk k w ->
        dials w !! k = Some false ->
        let r := udpListener_v01 address ds incomings w in
        outcome r = Exit 1 /\ readResults (events r) = []
        /\ written (events r) = []
        /\ last (events r) = Some (EvFatal "ERROR: UDP connection failed - %s")).
Proof.
  split.
  - intros Hok.
    unfold udpListener_v01, log_Printf, emit, bind, ListenUDP.
    by rewrite Hok.
  - intros k dk Hok Hk Hd Hf r. subst r.
    unfold udpListener_v01, log_Printf. rewrite emit_bind.
    rewrite (bind_Ret (ListenUDP address) _ w w [EvListen address true] true)
      by (unfold ListenUDP; by rewrite Hok).
    rewrite (bind_Exit _ _ _ _ _ _ (dialAll_fails_run ds [] w k dk Hk Hd Hf)).
    proj. destruct (dialEvents_quiet (nextConn w) (take k ds)) as [H1 H2].
    split; [done|]. split; [|split].
    + by rewrite !readResults_app, H1.
    + by rewrite !written_app, H2.
    + change [EvDial (Address dk) Second None;
              EvFatal "ERROR: UDP connection failed - %s"]
        with ([EvDial (Address dk) Second None]
                ++ [EvFatal "ERROR: UDP connection failed - %s"]).
      rewrite !app_assoc. apply last_snoc.
Qed.

Lemma v01_startup_fatal_witness :
  listenOk broken = true /\ sampleDests !! 0 = Some prodDest
  /\ dialsOk 0 broken /\ dials broken !! 0 = Some false
  /\ outcome (udpListener_v01 (B ":8125") sampleDests sampleIncomings broken)
     = Exit 1.
Proof.
  assert (dialsOk 0 broken) as H by constructor.
  split; [reflexivity|]. split; [reflexivity|]. split; [exact H|].
  split; [reflexivity|].
  exact (proj1 (proj2 (v01_startup_fatal (B ":8125") sampleDests
                         sampleIncomings broken)
                  0 prodDest eq_refl eq_refl H eq_refl)).
Defined.

(** ** The destinations of the command line *)

Section Destinations.

Variable MustCompile : bytes -> option Regexp.

Lemma parseDestination_parts (a host port pattern replacement : bytes)
    (extra : list bytes) (re : Regexp) :
  Split a COLON = host :: port :: pattern :: replacement :: extra ->
  MustCompile pattern = Some re ->
  parseDestination MustCompile a
  = Some (mkDestination (host ++ COLON :: port) re replacement).
Proof.
  intros Hs Hre. unfold parseDestination. rewrite Hs. cbn. by rewrite Hre.
Qed.

(** X14.  A destination given as host, port, pattern and template with
    colons between them, none of the four having a colon of its own,
    becomes the destination with the address host, colon, port, the
    compiled pattern and the template.  Anything after a further colon is
    left out: the template ends at the next colon. *)
Theorem parseDestination_fields (host port pattern replacement : bytes)
    (extra : list bytes) (re : Regexp) :
  Forall (fun field => COLON ∉ field)
    (host :: port :: pattern :: replacement :: extra) ->
  MustCompile pattern = Some re ->
  parseDestination MustCompile
    (Join (host :: port :: pattern :: replacement :: extra) COLON)
  = Some (mkDestination (host ++ COLON :: port) re replacement).
Proof.
  intros Hf Hre. eapply parseDestination_parts; [|exact Hre].
  by apply Split_Join.
Qed.

Lemma parseDestination_short (a : bytes) :
  length (Split a COLON) < 4 -> parseDestination MustCompile a = None.
Proof.
  intros Hlen. unfold parseDestination.
  destruct (Split a COLON) as [|p0 [|p1 [|p2 [|p3 rest]]]]; cbn in *;
    try done; try lia.
  by destruct (MustCompile p2).
Qed.

Lemma parseDestinations_panics (rest : list bytes)
    (destinations : list Destination) (w : World) :
  Exists (fun a => parseDestination MustCompile a = None) rest ->
  parseDestinations MustCompile rest destinations w = ([], w, Panic).
Proof.
  intros Hex. revert destinations.
  induction rest as [|a rest IH]; intros destinations;
    [by apply Exists_nil in Hex|].
  cbn [parseDestinations].
  destruct (parseDestination MustCompile a) as [d|] eqn:E; [|done].
  apply IH. apply Exists_cons in Hex as [Hex|Hex]; [congruence | done].
Qed.

(** X15.  When a destination of the command line has fewer than four
    fields, that is fewer than three colons, or a pattern that does not
    compile, both versions of [main] panic before they log, bind or dial
    anything (unless the version is asked for). *)
Theorem malformed_destination_panics (flags : Flags) (w : World) :
  showVersion flags = false ->
  Exists (fun a =>
            length (Split a COLON) < 4
            \/ exists pattern, Split a COLON !! 2 = Some pattern
                               /\ MustCompile pattern = None)
    (destinationAddresses flags) ->
  (forall received,
     main MustCompile flags received w = ([], w, Panic))
  /\ (forall incomings,
        main_v01 MustCompile flags incomings w = ([], w, Panic)).
Proof.
  intros Hv Hex.
  assert (startup MustCompile flags w = ([], w, Panic)) as Hs.
  { unfold startup. rewrite Hv.
    rewrite (bind_Panic _ _ w w []); [done|].
    apply parseDestinations_panics.
    eapply Exists_impl; [exact Hex|]. intros a [Hshort|(pat & Hp & Hc)].
    - by apply parseDestination_short.
    - unfold parseDestination.
      destruct (Split a COLON) as [|p0 [|p1 [|p2 rest]]]; try done.
      cbn in Hp. injection Hp as ->. cbn. by rewrite Hc. }
  split; intros ?; [unfold main | unfold main_v01];
    by rewrite (bind_Panic _ _ _ _ _ Hs).
Qed.

Lemma parseDestinations_ok (rest : list bytes)
    (destinations found : list Destination) (w : World) :
  Forall2 (fun a d => parseDestination MustCompile a = Some d) rest found ->
  parseDestinations MustCompile rest destinations w
  = ([], w, Ret (destinations ++ found)).
Proof.
  intros H. revert destinations.
  induction H as [|a d rest found Ha _ IH]; intros destinations.
  - cbn. by rewrite app_nil_r.
  - cbn [parseDestinations]. rewrite Ha, IH, <- app_assoc. done.
Qed.

Lemma foldl_StringArray_Set (values init : list bytes) :
  foldl StringArray_Set init values = init ++ values.
Proof.
  revert init. induction values as [|v values IH]; intros init; cbn [foldl].
  - by rewrite app_nil_r.
  - rewrite IH. unfold StringArray_Set. by rewrite <- app_assoc.
Qed.

(** X16.  The destinations are those of the command line, one for each
    [-destination-address] and in the order they were given: when each
    value is a destination and there is at least one, the start-up returns
    them, without an event. *)
Theorem startup_destinations (flags : Flags) (values : list bytes)
    (ds : list Destination) (w : World) :
  showVersion flags = false ->
  destinationAddresses flags = foldl StringArray_Set [] values ->
  values <> [] ->
  Forall2 (fun a d => parseDestination MustCompile a = Some d) values ds ->
  startup MustCompile flags w = ([], w, Ret (Some ds)).
Proof.
  intros Hv Hd Hne Hall. unfold startup. rewrite Hv, Hd.
  rewrite foldl_StringArray_Set. cbn [app].
  rewrite (bind_Ret _ _ _ _ _ _ (parseDestinations_ok values [] ds w Hall)).
  cbn [app]. rewrite decide_False; [done|].
  apply Forall2_length in Hall. destruct values; [done|].
  cbn in Hall. rewrite <- Hall. done.
Qed.

End Destinations.

Lemma parseDestination_fields_witness :
  Forall (fun field => COLON ∉ field)
    [B "127.0.0.1"; B "9001"; B "stats."; B "prod."; B "x"]
  /\ compileLiteral (B "stats.") = Some (literal (B "stats."))
  /\ parseDestination compileLiteral (B "127.0.0.1:9001:stats.:prod.:x")
     = Some (mkDestination (B "127.0.0.1:9001") (literal (B "stats."))
               (B "prod.")).
Proof.
  assert (Forall (fun field => COLON ∉ field)
            [B "127.0.0.1"; B "9001"; B "stats."; B "prod."; B "x"]) as H.
  { apply (bool_decide_unpack _). vm_compute. exact I. }
  split; [exact H|]. split; [reflexivity|].
  exact (parseDestination_fields compileLiteral (B "127.0.0.1") (B "9001")
           (B "stats.") (B "prod.") [B "x"] _ H eq_refl).
Defined.

Lemma malformed_destination_panics_witness :
  showVersion shortFlags = false
  /\ length (Split (B "127.0.0.1:9001") COLON) < 4
  /\ main compileLiteral shortFlags [] quiet = ([], quiet, Panic).
Proof.
  assert (length (Split (B "127.0.0.1:9001") COLON) < 4) as H
    by (vm_compute; lia).
  split; [reflexivity|]. split; [exact H|].
  exact (proj1 (malformed_destination_panics compileLiteral shortFlags quiet
                  eq_refl (Exists_cons_hd _ _ _ (or_introl H))) []).
Defined.

Lemma startup_destinations_witness :
  showVersion oneFlags = false
  /\ destinationAddresses oneFlags = foldl StringArray_Set [] [B "h:1:a:b"]
  /\ startup compileLiteral oneFlags quiet
     = ([], quiet,
        Ret (Some [mkDestination (B "h:1") (literal (B "a")) (B "b")])).
Proof.
  split; [reflexivity|]. split; [reflexivity|].
  apply (startup_destinations compileLiteral oneFlags [B "h:1:a:b"]);
    [reflexivity | reflexivity | discriminate |].
  constructor; [reflexivity | constructor].
Defined.

(** ** A packet is a line again *)


